(** * The "Add Distributor" page: record store and form controller

    A shallow embedding of [src/pages/AddDistributor.jsx]: the list of
    distributor records kept in React state and mirrored to
    [localStorage], the form fields, [validate], [handleSave],
    [handleDelete] and [resetForm].

    The page runs on the JavaScript platform, so the file first models the
    built-ins the page calls ([String.prototype.trim], [Math.max], property
    access, [!==], [JSON.stringify], [JSON.parse], [localStorage]) and then
    the page itself.

    Conventions.
    - A JavaScript string is its sequence of UTF-16 code units, [list N].
    - A JavaScript number is an integer, a decimal fraction, [NaN] or an
      infinity.  Integers are IEEE 754 doubles: a number literal and a sum
      with an integer value are rounded to the nearest double, and an
      integer is written with the fewest digits that read back as the
      same double.  Decimal fractions are kept exact, the sum of two
      finite numbers stays finite, and the two zeros are not told apart.
    - A thrown exception is the [Throw] case of [result]. *)

From Stdlib Require Import ZArith NArith Decimal DecimalN Ascii String.
From stdpp Require Import gmap strings list.

Local Open Scope N_scope.

(** ** Exceptions *)

Inductive exn :=
| TypeError
| SyntaxError
| SecurityError
| QuotaExceededError.

Inductive result (A : Type) :=
| Ok (a : A)
| Throw (e : exn).
Arguments Ok {A} a.
Arguments Throw {A} e.

Global Instance result_ret : MRet result := λ A a, Ok a.
Global Instance result_bind : MBind result := λ A B k r,
  match r with
  | Ok a => k a
  | Throw e => Throw e
  end.
Global Instance result_fmap : FMap result := λ A B f r,
  match r with
  | Ok a => Ok (f a)
  | Throw e => Throw e
  end.

(** [try { body } catch { handler }] *)
Definition try_catch {A} (body : result A) (handler : exn → result A) : result A :=
  match body with
  | Ok a => Ok a
  | Throw e => handler e
  end.

(** ** Strings *)

Abbreviation jsstring := (list N).

Definition chr (a : ascii) : N := N_of_ascii a.
Definition quotation_mark : N := 0x22.

(** The string with the code units of an ASCII literal. *)
Definition js (s : string) : jsstring := map chr (list_ascii_of_string s).

(** WhiteSpace and LineTerminator code points, the set that [trim] and the
    string-to-number conversion strip. *)
Definition is_whitespace (c : N) : bool :=
  (c =? 0x09) || (c =? 0x0A) || (c =? 0x0B) || (c =? 0x0C) || (c =? 0x0D)
  || (c =? 0x20) || (c =? 0xA0) || (c =? 0x1680)
  || ((0x2000 <=? c) && (c <=? 0x200A))
  || (c =? 0x2028) || (c =? 0x2029) || (c =? 0x202F) || (c =? 0x205F)
  || (c =? 0x3000) || (c =? 0xFEFF).

Fixpoint trimStart (s : jsstring) : jsstring :=
  match s with
  | c :: s' => if is_whitespace c then trimStart s' else s
  | [] => []
  end.

Fixpoint trimEnd (s : jsstring) : jsstring :=
  match s with
  | c :: s' =>
      match trimEnd s' with
      | [] => if is_whitespace c then [] else [c]
      | t => c :: t
      end
  | [] => []
  end.

(** [s.trim()] *)
Definition trim (s : jsstring) : jsstring := trimEnd (trimStart s).

(** Truthiness of a string: only the empty string is falsy. *)
Definition truthy (s : jsstring) : bool :=
  match s with [] => false | _ :: _ => true end.

(** ** Decimal digits *)

Definition is_digit (c : N) : bool := (chr "0" <=? c) && (c <=? chr "9").

Fixpoint chars_of_uint (d : uint) : jsstring :=
  match d with
  | Nil => []
  | D0 d => chr "0" :: chars_of_uint d
  | D1 d => chr "1" :: chars_of_uint d
  | D2 d => chr "2" :: chars_of_uint d
  | D3 d => chr "3" :: chars_of_uint d
  | D4 d => chr "4" :: chars_of_uint d
  | D5 d => chr "5" :: chars_of_uint d
  | D6 d => chr "6" :: chars_of_uint d
  | D7 d => chr "7" :: chars_of_uint d
  | D8 d => chr "8" :: chars_of_uint d
  | D9 d => chr "9" :: chars_of_uint d
  end.

Definition digit_cons (c : N) (d : uint) : uint :=
  if c =? chr "0" then D0 d else if c =? chr "1" then D1 d
  else if c =? chr "2" then D2 d else if c =? chr "3" then D3 d
  else if c =? chr "4" then D4 d else if c =? chr "5" then D5 d
  else if c =? chr "6" then D6 d else if c =? chr "7" then D7 d
  else if c =? chr "8" then D8 d else D9 d.

(** The longest prefix of decimal digits, and what follows it. *)
Fixpoint scan_digits (s : jsstring) : uint * jsstring :=
  match s with
  | c :: s' =>
      if is_digit c
      then let '(d, r) := scan_digits s' in (digit_cons c d, r)
      else (Nil, s)
  | [] => (Nil, [])
  end.

(** The decimal digits of a natural number, most significant first. *)
Definition digits (n : N) : jsstring := chars_of_uint (N.to_uint n).

(** ** Numbers *)

(** [Int z] is the integer [z]; [Dec m e] is [m / 10^e] with [0 < e] and
    [m] not a multiple of ten, so that a value has one representation.
    The integers that literals and sums give are doubles. *)
Inductive number :=
| NaN
| PosInf
| NegInf
| Int (z : Z)
| Dec (m : Z) (e : nat).

Global Instance number_eq_dec : EqDecision number.
Proof. solve_decision. Defined.

(** [m / 10^e] in the representation above. *)
Fixpoint make_decimal (m : Z) (e : nat) : number :=
  match e with
  | O => Int m
  | S e' => if (m mod 10 =? 0)%Z then make_decimal (m / 10) e' else Dec m e
  end.

(** A finite number as mantissa and count of decimal places. *)
Definition finite_parts (x : number) : option (Z * nat) :=
  match x with
  | Int z => Some (z, O)
  | Dec m e => Some (m, e)
  | _ => None
  end.

Definition pow10 (e : nat) : Z := (10 ^ Z.of_nat e)%Z.

(** [x < y]; false when either side is [NaN]. *)
Definition number_ltb (x y : number) : bool :=
  match x, y with
  | NaN, _ | _, NaN => false
  | _, NegInf | PosInf, _ => false
  | NegInf, _ | _, PosInf => true
  | _, _ =>
      match finite_parts x, finite_parts y with
      | Some (m1, e1), Some (m2, e2) => (m1 * pow10 e2 <? m2 * pow10 e1)%Z
      | _, _ => false
      end
  end.

(** The double nearest to the integer [z], as IEEE 754 rounds: an integer
    of more than 53 bits loses its low bits, to the nearest multiple, and
    to the even mantissa when [z] is half way between two. *)
Definition round_double (z : Z) : Z :=
  let a := Z.abs z in
  let k := (Z.log2 a - 52)%Z in
  if (k <=? 0)%Z then z
  else
    let q := (a / 2 ^ k)%Z in
    let r := (a mod 2 ^ k)%Z in
    let half := (2 ^ (k - 1))%Z in
    let q' :=
      if (r <? half)%Z then q
      else if (half <? r)%Z then (q + 1)%Z
      else if Z.even q then q else (q + 1)%Z in
    (Z.sgn z * (q' * 2 ^ k))%Z.

(** The Number value of the integer [z]: the nearest double, and an
    infinity when that is [2^1024] or beyond. *)
Definition number_of_integer (z : Z) : number :=
  let r := round_double z in
  if (2 ^ 1024 <=? Z.abs r)%Z then (if (z <? 0)%Z then NegInf else PosInf)
  else Int r.

(** [x + y] on numbers.  A sum with an integer value is rounded to the
    nearest double.  The sum of two finite numbers is kept finite: the
    page only adds 1 to a number, and that never gives an infinity. *)
Definition number_add (x y : number) : number :=
  match x, y with
  | NaN, _ | _, NaN => NaN
  | PosInf, NegInf | NegInf, PosInf => NaN
  | PosInf, _ | _, PosInf => PosInf
  | NegInf, _ | _, NegInf => NegInf
  | _, _ =>
      match finite_parts x, finite_parts y with
      | Some (m1, e1), Some (m2, e2) =>
          let e := Nat.max e1 e2 in
          match make_decimal (m1 * pow10 (e - e1) + m2 * pow10 (e - e2))%Z e with
          | Int z => Int (round_double z)
          | sum => sum
          end
      | _, _ => NaN
      end
  end.

(** The value of the literal [whole.frac e x], negated when [neg]. *)
Definition number_of_literal (neg : bool) (whole frac : uint) (x : Z) : number :=
  let m := Z.of_N (N.of_uint (Decimal.app whole frac)) in
  let m := if neg then (- m)%Z else m in
  let scale := (x - Z.of_nat (nb_digits frac))%Z in
  if (0 <=? scale)%Z then number_of_integer (m * 10 ^ scale)
  else
    match make_decimal m (Z.to_nat (- scale)) with
    | Int z => number_of_integer z
    | fraction => fraction
    end.

(** The exponent part after its [e]: an optional sign and at least one
    digit. *)
Definition scan_exponent (s : jsstring) : option (Z * jsstring) :=
  let '(neg, s1) :=
    match s with
    | c :: s' =>
        if c =? chr "-" then (true, s')
        else if c =? chr "+" then (false, s') else (false, s)
    | [] => (false, [])
    end in
  match scan_digits s1 with
  | (Nil, _) => None
  | (d, r) =>
      let x := Z.of_N (N.of_uint d) in
      Some (if neg then (- x)%Z else x, r)
  end.

Definition is_e (c : N) : bool := (c =? chr "e") || (c =? chr "E").

(** A digit string without its trailing zeros. *)
Fixpoint strip_zeros (s : jsstring) : jsstring :=
  match s with
  | c :: s' =>
      match strip_zeros s' with
      | [] => if c =? chr "0" then [] else [c]
      | t => c :: t
      end
  | [] => []
  end.

(** Exponent form: one digit, the other digits after a point, and the
    signed exponent. *)
Definition exponent_form (ds : jsstring) (n : Z) : jsstring :=
  let x := (n - 1)%Z in
  let tail :=
    chr "e" :: (if (x <? 0)%Z then chr "-" else chr "+") :: digits (Z.abs_N x) in
  match ds with
  | [] => tail
  | [d] => d :: tail
  | d :: rest => d :: chr "." :: rest ++ tail
  end.

(** Number::toString of the positive value [0.ds * 10^n], where [ds] are
    its significant digits: plain digits up to 21 places, a decimal point
    inside or after a few leading zeros, and exponent form otherwise. *)
Definition unsigned_to_string (ds : jsstring) (n : Z) : jsstring :=
  let k := Z.of_nat (length ds) in
  if ((k <=? n) && (n <=? 21))%Z then
    ds ++ replicate (Z.to_nat (n - k)) (chr "0")
  else if ((0 <? n) && (n <=? 21))%Z then
    take (Z.to_nat n) ds ++ chr "." :: drop (Z.to_nat n) ds
  else if ((-6 <? n) && (n <=? 0))%Z then
    chr "0" :: chr "." :: replicate (Z.to_nat (- n)) (chr "0") ++ ds
  else exponent_form ds n.

(** The decimal with the fewest significant digits that reads back as the
    double [z], for [0 < z]: the candidates are the two multiples of
    [10^j] around [z], from the largest [j] down; of two candidates that
    both read back as [z] the closer one is taken, and the one with the
    even digits when they are as close. *)
Fixpoint shortest_decimal (j : nat) (z : Z) : Z :=
  let p := pow10 j in
  let lo := (z / p * p)%Z in
  let hi := (lo + p)%Z in
  let lo_reads := (round_double lo =? z)%Z in
  let hi_reads := (round_double hi =? z)%Z in
  let lo_closer :=
    ((z - lo <? hi - z) || ((z - lo =? hi - z) && Z.even (z / p)))%Z in
  if lo_reads && (negb hi_reads || lo_closer) then lo
  else if hi_reads then hi
  else
    match j with
    | O => z
    | S j' => shortest_decimal j' z
    end.

(** Number::toString.  An integer is written with the digits of its
    shortest decimal, in full below [10^21] and in exponent form from
    there. *)
Definition number_to_string (x : number) : jsstring :=
  match x with
  | NaN => js "NaN"
  | PosInf => js "Infinity"
  | NegInf => js "-Infinity"
  | Int z =>
      let a := shortest_decimal (length (digits (Z.abs_N z))) (Z.abs z) in
      let ds := digits (Z.abs_N a) in
      (if (z <? 0)%Z then [chr "-"] else [])
      ++ (if (a <? 10 ^ 21)%Z then ds
          else exponent_form (strip_zeros ds) (Z.of_nat (length ds)))
  | Dec m e =>
      let ds := digits (Z.abs_N m) in
      (if (m <? 0)%Z then [chr "-"] else [])
      ++ unsigned_to_string ds (Z.of_nat (length ds) - Z.of_nat e)
  end.

(** The digits of [s] in the given radix, for the [0x], [0o] and [0b]
    literals: [None] unless every code unit is a digit of the radix. *)
Definition radix_digit (radix c : N) : option N :=
  let v :=
    if is_digit c then Some (c - chr "0")
    else if (chr "a" <=? c) && (c <=? chr "f") then Some (c - chr "a" + 10)
    else if (chr "A" <=? c) && (c <=? chr "F") then Some (c - chr "A" + 10)
    else None in
  match v with
  | Some d => if d <? radix then Some d else None
  | None => None
  end.

Fixpoint radix_value (radix : N) (acc : N) (s : jsstring) : option N :=
  match s with
  | [] => Some acc
  | c :: s' =>
      match radix_digit radix c with
      | Some d => radix_value radix (acc * radix + d) s'
      | None => None
      end
  end.

Definition radix_literal (radix : N) (s : jsstring) : number :=
  match s with
  | [] => NaN
  | _ =>
      match radix_value radix 0 s with
      | Some n => number_of_integer (Z.of_N n)
      | None => NaN
      end
  end.

(** StrUnsignedDecimalLiteral: [Infinity], or digits with an optional
    fraction and exponent, up to the end of the string. *)
Definition unsigned_decimal_literal (neg : bool) (s : jsstring) : number :=
  if decide (s = js "Infinity") then (if neg then NegInf else PosInf)
  else
    let '(whole, r1) := scan_digits s in
    let '(frac, r2) :=
      match r1 with
      | c :: r => if c =? chr "." then scan_digits r else (Nil, r1)
      | [] => (Nil, [])
      end in
    match whole, frac with
    | Nil, Nil => NaN
    | _, _ =>
        match r2 with
        | [] => number_of_literal neg whole frac 0
        | c :: r =>
            if is_e c then
              match scan_exponent r with
              | Some (x, []) => number_of_literal neg whole frac x
              | _ => NaN
              end
            else NaN
        end
    end.

(** StringToNumber: the conversion of a string to a number. *)
Definition StringToNumber (s : jsstring) : number :=
  match trim s with
  | [] => Int 0
  | c :: r =>
      if c =? chr "+" then unsigned_decimal_literal false r
      else if c =? chr "-" then unsigned_decimal_literal true r
      else
        match r with
        | p :: r' =>
            if negb (c =? chr "0") then unsigned_decimal_literal false (c :: r)
            else if (p =? chr "x") || (p =? chr "X") then radix_literal 16 r'
            else if (p =? chr "o") || (p =? chr "O") then radix_literal 8 r'
            else if (p =? chr "b") || (p =? chr "B") then radix_literal 2 r'
            else unsigned_decimal_literal false (c :: r)
        | [] => unsigned_decimal_literal false [c]
        end
  end.

(** ** Values *)

Inductive primitive :=
| Undefined
| Null
| Bool (b : bool)
| Number (n : number)
| Str (s : jsstring).

#[local] Set Warnings "-register-all".

(** The values the page holds: primitives, and the arrays and plain objects
    that array and object literals and [JSON.parse] build.  An object is
    its own properties in the order [Object.keys] lists them. *)
Inductive value :=
| Prim (p : primitive)
| Array (elems : list value)
| Object (props : list (jsstring * value)).

Coercion Prim : primitive >-> value.

Global Instance primitive_eq_dec : EqDecision primitive.
Proof. solve_decision. Defined.

Fixpoint lookup_prop (k : jsstring) (props : list (jsstring * value)) : option value :=
  match props with
  | [] => None
  | (k', v) :: ps => if decide (k' = k) then Some v else lookup_prop k ps
  end.

(** [v.k] for a property name [k] that no built-in prototype defines and
    that is neither an index nor [length] (the page reads [id], [module]
    and the text fields): the own property of an object, [undefined] on the other
    values, and a TypeError on [undefined] and [null]. *)
Definition get_prop (v : value) (k : jsstring) : result value :=
  match v with
  | Prim Undefined | Prim Null => Throw TypeError
  | Prim _ | Array _ => Ok (Prim Undefined)
  | Object props => Ok (default (Prim Undefined) (lookup_prop k props))
  end.

(** [x === p] for a primitive [p]: same type and same value, [NaN] being
    equal to nothing.  (Arrays and objects are equal by reference only,
    hence to no primitive.) *)
Definition strict_equal (x : value) (p : primitive) : bool :=
  match x with
  | Prim q =>
      match p with
      | Number NaN => false
      | _ => bool_decide (q = p)
      end
  | _ => false
  end.

(** ToString.  An array joins its elements with commas, [undefined] and
    [null] elements giving the empty string; a plain object gives
    ["[object Object]"] through [Object.prototype.toString], unless an own
    [toString] property (never callable here) hides it, which is a
    TypeError. *)
Definition prim_to_string (p : primitive) : jsstring :=
  match p with
  | Undefined => js "undefined"
  | Null => js "null"
  | Bool true => js "true"
  | Bool false => js "false"
  | Number n => number_to_string n
  | Str s => s
  end.

Fixpoint ToString (v : value) : result jsstring :=
  match v with
  | Prim p => Ok (prim_to_string p)
  | Array elems =>
      (fix join (l : list value) : result jsstring :=
         let element (x : value) :=
           match x with
           | Prim Undefined | Prim Null => Ok []
           | _ => ToString x
           end in
         match l with
         | [] => Ok []
         | [x] => element x
         | x :: l' => s ← element x; t ← join l'; Ok (s ++ chr "," :: t)
         end) elems
  | Object props =>
      match lookup_prop (js "toString") props with
      | Some _ => Throw TypeError
      | None => Ok (js "[object Object]")
      end
  end.

(** ToNumber.  Arrays and objects go through ToPrimitive, which ends in
    the string conversion above. *)
Definition ToNumber (v : value) : result number :=
  match v with
  | Prim Undefined => Ok NaN
  | Prim Null => Ok (Int 0)
  | Prim (Bool b) => Ok (Int (if b then 1 else 0))
  | Prim (Number n) => Ok n
  | Prim (Str s) => Ok (StringToNumber s)
  | _ => s ← ToString v; Ok (StringToNumber s)
  end.

Module Math.

(** [Math.max(...args)]: every argument is converted first; the result
    is [NaN] if one of them is, and the largest otherwise, starting
    from [-Infinity]. *)
Definition max (args : list value) : result number :=
  coerced ← mapM ToNumber args;
  Ok (foldl (λ highest n,
               match highest, n with
               | NaN, _ | _, NaN => NaN
               | _, _ => if number_ltb highest n then n else highest
               end) NegInf coerced).

End Math.

(** ** Objects: property order *)

(** An array index: the canonical decimal string of an integer below
    [2^32 - 1]. *)
Definition array_index (k : jsstring) : option N :=
  match scan_digits k with
  | (d, []) =>
      let i := N.of_uint d in
      if bool_decide (digits i = k) && (i <? 2 ^ 32 - 1) then Some i else None
  | _ => None
  end.

Fixpoint replace_prop (k : jsstring) (v : value) (props : list (jsstring * value))
  : list (jsstring * value) :=
  match props with
  | [] => []
  | (k', v') :: ps =>
      if decide (k' = k) then (k, v) :: ps else (k', v') :: replace_prop k v ps
  end.

Fixpoint insert_index (i : N) (k : jsstring) (v : value)
    (props : list (jsstring * value)) : list (jsstring * value) :=
  match props with
  | [] => [(k, v)]
  | (k', v') :: ps =>
      match array_index k' with
      | Some j =>
          if j <? i then (k', v') :: insert_index i k v ps else (k, v) :: props
      | None => (k, v) :: props
      end
  end.

(** CreateDataProperty on a plain object: an existing key keeps its place
    and takes the new value; a new array index goes among the indices, in
    ascending order, before every other key; any other new key goes last. *)
Definition define_prop (props : list (jsstring * value)) (kv : jsstring * value)
  : list (jsstring * value) :=
  let '(k, v) := kv in
  match lookup_prop k props with
  | Some _ => replace_prop k v props
  | None =>
      match array_index k with
      | Some i => insert_index i k v props
      | None => props ++ [(k, v)]
      end
  end.

(** The object literal [{ k1: v1, ..., kn: vn }] and the object that
    [JSON.parse] builds from the members it reads, in that order. *)
Definition object_of (members : list (jsstring * value)) : value :=
  Object (foldl define_prop [] members).

(** ** JSON *)

Module JSON.

Definition hex_digit (d : N) : N :=
  if d <? 10 then chr "0" + d else chr "a" + (d - 10).

(** [\uXXXX] with four lowercase hexadecimal digits. *)
Definition unicode_escape (c : N) : jsstring :=
  [chr "\"; chr "u"; hex_digit (c / 4096 mod 16); hex_digit (c / 256 mod 16);
   hex_digit (c / 16 mod 16); hex_digit (c mod 16)].

Definition is_high_surrogate (c : N) : bool := (0xD800 <=? c) && (c <=? 0xDBFF).
Definition is_low_surrogate (c : N) : bool := (0xDC00 <=? c) && (c <=? 0xDFFF).

(** One code unit that is not a surrogate, as QuoteJSONString writes it. *)
Definition quote_unit (c : N) : jsstring :=
  if c =? 0x08 then js "\b"
  else if c =? 0x09 then js "\t"
  else if c =? 0x0A then js "\n"
  else if c =? 0x0C then js "\f"
  else if c =? 0x0D then js "\r"
  else if c =? quotation_mark then [chr "\"; quotation_mark]
  else if c =? chr "\" then [chr "\"; chr "\"]
  else if c <? 0x20 then unicode_escape c
  else [c].

(** The body of QuoteJSONString: a surrogate pair is copied, a lone
    surrogate is escaped. *)
Fixpoint quote_units (s : jsstring) : jsstring :=
  match s with
  | [] => []
  | c :: s' =>
      if is_high_surrogate c then
        match s' with
        | c2 :: s'' =>
            if is_low_surrogate c2 then c :: c2 :: quote_units s''
            else unicode_escape c ++ quote_units s'
        | [] => unicode_escape c
        end
      else if is_low_surrogate c then unicode_escape c ++ quote_units s'
      else quote_unit c ++ quote_units s'
  end.

Definition quote (s : jsstring) : jsstring :=
  quotation_mark :: quote_units s ++ [quotation_mark].

Fixpoint join_commas (parts : list jsstring) : jsstring :=
  match parts with
  | [] => []
  | [p] => p
  | p :: ps => p ++ chr "," :: join_commas ps
  end.

Definition serialize_prim (p : primitive) : option jsstring :=
  match p with
  | Undefined => None
  | Null => Some (js "null")
  | Bool true => Some (js "true")
  | Bool false => Some (js "false")
  | Number (Int z) => Some (number_to_string (Int z))
  | Number (Dec m e) => Some (number_to_string (Dec m e))
  | Number _ => Some (js "null")
  | Str s => Some (quote s)
  end.

(** SerializeJSONProperty without indentation, replacer or [toJSON]
    (no value here has a callable property): [None] is [undefined],
    which an array writes as [null] and an object leaves out. *)
Fixpoint serialize (v : value) : option jsstring :=
  match v with
  | Prim p => serialize_prim p
  | Array elems =>
      Some (chr "[" ::
            join_commas (map (λ x, default (js "null") (serialize x)) elems)
            ++ [chr "]"])
  | Object props =>
      Some (chr "{" ::
            join_commas
              ((fix members (ps : list (jsstring * value)) : list jsstring :=
                  match ps with
                  | [] => []
                  | (k, x) :: ps' =>
                      match serialize x with
                      | Some t => (quote k ++ chr ":" :: t) :: members ps'
                      | None => members ps'
                      end
                  end) props)
            ++ [chr "}"])
  end.

(** [JSON.stringify(v)]: a string, or [undefined] ([None]). *)
Definition stringify (v : value) : option jsstring := serialize v.

(** *** Parsing *)

Definition is_ws (c : N) : bool :=
  (c =? 0x20) || (c =? 0x09) || (c =? 0x0A) || (c =? 0x0D).

Fixpoint skip_ws (s : jsstring) : jsstring :=
  match s with
  | c :: s' => if is_ws c then skip_ws s' else s
  | [] => []
  end.

Definition simple_escape (c : N) : option N :=
  if c =? quotation_mark then Some (quotation_mark)
  else if c =? chr "\" then Some (chr "\")
  else if c =? chr "/" then Some (chr "/")
  else if c =? chr "b" then Some 0x08
  else if c =? chr "f" then Some 0x0C
  else if c =? chr "n" then Some 0x0A
  else if c =? chr "r" then Some 0x0D
  else if c =? chr "t" then Some 0x09
  else None.

Definition hex4 (h1 h2 h3 h4 : N) : option N :=
  d1 ← radix_digit 16 h1; d2 ← radix_digit 16 h2;
  d3 ← radix_digit 16 h3; d4 ← radix_digit 16 h4;
  Some (((d1 * 16 + d2) * 16 + d3) * 16 + d4).

(** The code units of a string literal after its opening quote, up to
    the closing quote, and what follows. *)
Fixpoint parse_units (s : jsstring) : option (jsstring * jsstring) :=
  match s with
  | [] => None
  | c :: s1 =>
      if c =? quotation_mark then Some ([], s1)
      else if c =? chr "\" then
        match s1 with
        | [] => None
        | e :: s2 =>
            if e =? chr "u" then
              match s2 with
              | h1 :: h2 :: h3 :: h4 :: s3 =>
                  u ← hex4 h1 h2 h3 h4;
                  '(t, r) ← parse_units s3;
                  Some (u :: t, r)
              | _ => None
              end
            else
              u ← simple_escape e;
              '(t, r) ← parse_units s2;
              Some (u :: t, r)
        end
      else if c <? 0x20 then None
      else '(t, r) ← parse_units s1; Some (c :: t, r)
  end.

(** A number token: [-]? int frac? exp?.  The int part is a zero, or a
    digit other than zero followed by digits. *)
Definition parse_int (s : jsstring) : option (uint * jsstring) :=
  match s with
  | c :: s' =>
      if c =? chr "0" then Some (D0 Nil, s')
      else if is_digit c then Some (scan_digits s)
      else None
  | [] => None
  end.

(** frac?: a point and at least one digit. *)
Definition parse_frac (s : jsstring) : option (uint * jsstring) :=
  match s with
  | c :: r =>
      if c =? chr "." then
        match scan_digits r with
        | (Nil, _) => None
        | (d, r') => Some (d, r')
        end
      else Some (Nil, s)
  | [] => Some (Nil, [])
  end.

(** exp? *)
Definition parse_exp (s : jsstring) : option (Z * jsstring) :=
  match s with
  | c :: r => if is_e c then scan_exponent r else Some (0%Z, s)
  | [] => Some (0%Z, [])
  end.

Definition parse_number (s : jsstring) : option (number * jsstring) :=
  let '(neg, s1) :=
    match s with
    | c :: s' => if c =? chr "-" then (true, s') else (false, s)
    | [] => (false, [])
    end in
  '(whole, r1) ← parse_int s1;
  '(frac, r2) ← parse_frac r1;
  '(x, r3) ← parse_exp r2;
  Some (number_of_literal neg whole frac x, r3).

Definition expect (word : jsstring) (v : value) (s : jsstring)
  : option (value * jsstring) :=
  if bool_decide (take (length word) s = word)
  then Some (v, drop (length word) s) else None.

(** One JSON value at the head of [s], after white space, and what
    follows it.  Every nested call is on a shorter text with less fuel;
    [parse] starts with more fuel than the text can use. *)
Fixpoint parse_value (fuel : nat) (s : jsstring) : option (value * jsstring) :=
  match fuel with
  | O => None
  | S fuel =>
      match skip_ws s with
      | [] => None
      | c :: s1 =>
          if c =? chr "{" then
            match skip_ws s1 with
            | c2 :: s2 =>
                if c2 =? chr "}" then Some (Object [], s2)
                else
                  '(ms, r) ← parse_members fuel s1;
                  Some (object_of ms, r)
            | [] => None
            end
          else if c =? chr "[" then
            match skip_ws s1 with
            | c2 :: s2 =>
                if c2 =? chr "]" then Some (Array [], s2)
                else
                  '(vs, r) ← parse_elements fuel s1;
                  Some (Array vs, r)
            | [] => None
            end
          else if c =? quotation_mark then
            '(t, r) ← parse_units s1; Some (Prim (Str t), r)
          else if c =? chr "t" then expect (js "true") (Bool true) (c :: s1)
          else if c =? chr "f" then expect (js "false") (Bool false) (c :: s1)
          else if c =? chr "n" then expect (js "null") Null (c :: s1)
          else
            '(n, r) ← parse_number (c :: s1); Some (Prim (Number n), r)
      end
  end
with parse_elements (fuel : nat) (s : jsstring) : option (list value * jsstring) :=
  match fuel with
  | O => None
  | S fuel =>
      '(v, r) ← parse_value fuel s;
      match skip_ws r with
      | c :: r1 =>
          if c =? chr "," then
            '(vs, r2) ← parse_elements fuel r1; Some (v :: vs, r2)
          else if c =? chr "]" then Some ([v], r1)
          else None
      | [] => None
      end
  end
with parse_members (fuel : nat) (s : jsstring)
  : option (list (jsstring * value) * jsstring) :=
  match fuel with
  | O => None
  | S fuel =>
      match skip_ws s with
      | c :: s1 =>
          if c =? quotation_mark then
            '(k, r) ← parse_units s1;
            match skip_ws r with
            | c2 :: r1 =>
                if c2 =? chr ":" then
                  '(v, r2) ← parse_value fuel r1;
                  match skip_ws r2 with
                  | c3 :: r3 =>
                      if c3 =? chr "," then
                        '(ms, r4) ← parse_members fuel r3;
                        Some ((k, v) :: ms, r4)
                      else if c3 =? chr "}" then Some ([(k, v)], r3)
                      else None
                  | [] => None
                  end
                else None
            | [] => None
            end
          else None
      | [] => None
      end
  end.

(** [JSON.parse(text)]: the value of a text that is one JSON value
    between optional white space, a SyntaxError otherwise. *)
Definition parse (text : jsstring) : result value :=
  match parse_value (2 * length text + 2) text with
  | Some (v, r) =>
      match skip_ws r with
      | [] => Ok v
      | _ :: _ => Throw SyntaxError
      end
  | None => Throw SyntaxError
  end.

End JSON.

(** A JSON text written with apostrophes in place of quotation marks. *)
Definition json_text (s : string) : jsstring :=
  map (λ c, if c =? chr "'" then quotation_mark else c) (js s).

(** ** localStorage *)

Module localStorage.

(** The storage area of the origin: unavailable (every access throws a
    SecurityError), or a finite map from keys to strings with a quota on
    the code units it may hold. *)
Inductive Storage :=
| Blocked
| Slots (items : gmap jsstring jsstring) (quota : N).

Definition usage (items : gmap jsstring jsstring) : N :=
  map_fold (λ k v total, total + N.of_nat (length k) + N.of_nat (length v)) 0 items.

(** [localStorage.getItem(key)]: the stored string, or [null] ([None]). *)
Definition getItem (st : Storage) (key : jsstring) : result (option jsstring) :=
  match st with
  | Blocked => Throw SecurityError
  | Slots items _ => Ok (items !! key)
  end.

(** [localStorage.setItem(key, value)] *)
Definition setItem (st : Storage) (key value : jsstring) : result Storage :=
  match st with
  | Blocked => Throw SecurityError
  | Slots items quota =>
      let items' := <[key := value]> items in
      if usage items' <=? quota then Ok (Slots items' quota)
      else Throw QuotaExceededError
  end.

End localStorage.

(** ** The page: constants *)

Definition STORAGE_KEY : jsstring := js "egg_distributors_v1".

Record AccessModule := { key : string; title : string; desc : string }.

Definition ACCESS_MODULES : list AccessModule :=
  [ {| key := "dailySales"; title := "Daily Sales";
       desc := "Manage daily egg sales records." |};
    {| key := "digitalPayments"; title := "Digital Payments";
       desc := "Process UPI and card payments." |};
    {| key := "cashPayments"; title := "Cash Payments";
       desc := "Log and verify cash transactions." |};
    {| key := "outlets"; title := "Outlets";
       desc := "Manage distribution outlets." |};
    {| key := "reports"; title := "Reports";
       desc := "View analytics and downloads." |} ].

Definition SAMPLE : list value :=
  [ Object
      [ (js "id", Prim (Number (Int 1)));
        (js "fullName", Prim (Str (js "Karthik Rao")));
        (js "phone", Prim (Str (js "+91 98765 12345")));
        (js "username", Prim (Str (js "karthik.rao")));
        (js "module", Prim (Str (js "dailySales"))) ] ].

(** ** The page: state *)

(** The [useState] variables of [AddDistributor]. *)
Record State := {
  distributors : list value;
  fullName : jsstring;
  phone : jsstring;
  username : jsstring;
  password : jsstring;
  confirmPassword : jsstring;
  selectedModule : jsstring;
  showPassword : bool;
  showConfirm : bool;
  errors : gmap string string;
  savedMessage : string;
}.

(** The mounted page and what surrounds it: the storage area, the number
    of [setTimeout] callbacks (each one [resetForm]) not yet run, and
    whether [distributors] was set since the persistence effect last
    ran. *)
Record World := {
  page : State;
  storage : localStorage.Storage;
  timers : nat;
  distributorsChanged : bool;
}.

Definition with_page (f : State → State) (w : World) : World :=
  {| page := f (page w); storage := storage w; timers := timers w;
     distributorsChanged := distributorsChanged w |}.

Definition setFullName (v : jsstring) : World → World :=
  with_page (λ st,
    {| distributors := distributors st; fullName := v; phone := phone st;
       username := username st; password := password st;
       confirmPassword := confirmPassword st;
       selectedModule := selectedModule st; showPassword := showPassword st;
       showConfirm := showConfirm st; errors := errors st;
       savedMessage := savedMessage st |}).

Definition setPhone (v : jsstring) : World → World :=
  with_page (λ st,
    {| distributors := distributors st; fullName := fullName st; phone := v;
       username := username st; password := password st;
       confirmPassword := confirmPassword st;
       selectedModule := selectedModule st; showPassword := showPassword st;
       showConfirm := showConfirm st; errors := errors st;
       savedMessage := savedMessage st |}).

Definition setUsername (v : jsstring) : World → World :=
  with_page (λ st,
    {| distributors := distributors st; fullName := fullName st;
       phone := phone st; username := v; password := password st;
       confirmPassword := confirmPassword st;
       selectedModule := selectedModule st; showPassword := showPassword st;
       showConfirm := showConfirm st; errors := errors st;
       savedMessage := savedMessage st |}).

Definition setPassword (v : jsstring) : World → World :=
  with_page (λ st,
    {| distributors := distributors st; fullName := fullName st;
       phone := phone st; username := username st; password := v;
       confirmPassword := confirmPassword st;
       selectedModule := selectedModule st; showPassword := showPassword st;
       showConfirm := showConfirm st; errors := errors st;
       savedMessage := savedMessage st |}).

Definition setConfirmPassword (v : jsstring) : World → World :=
  with_page (λ st,
    {| distributors := distributors st; fullName := fullName st;
       phone := phone st; username := username st; password := password st;
       confirmPassword := v;
       selectedModule := selectedModule st; showPassword := showPassword st;
       showConfirm := showConfirm st; errors := errors st;
       savedMessage := savedMessage st |}).

Definition setSelectedModule (v : jsstring) : World → World :=
  with_page (λ st,
    {| distributors := distributors st; fullName := fullName st;
       phone := phone st; username := username st; password := password st;
       confirmPassword := confirmPassword st;
       selectedModule := v; showPassword := showPassword st;
       showConfirm := showConfirm st; errors := errors st;
       savedMessage := savedMessage st |}).

Definition setShowPassword (f : bool → bool) : World → World :=
  with_page (λ st,
    {| distributors := distributors st; fullName := fullName st;
       phone := phone st; username := username st; password := password st;
       confirmPassword := confirmPassword st;
       selectedModule := selectedModule st;
       showPassword := f (showPassword st);
       showConfirm := showConfirm st; errors := errors st;
       savedMessage := savedMessage st |}).

Definition setShowConfirm (f : bool → bool) : World → World :=
  with_page (λ st,
    {| distributors := distributors st; fullName := fullName st;
       phone := phone st; username := username st; password := password st;
       confirmPassword := confirmPassword st;
       selectedModule := selectedModule st; showPassword := showPassword st;
       showConfirm := f (showConfirm st); errors := errors st;
       savedMessage := savedMessage st |}).

Definition setErrors (e : gmap string string) : World → World :=
  with_page (λ st,
    {| distributors := distributors st; fullName := fullName st;
       phone := phone st; username := username st; password := password st;
       confirmPassword := confirmPassword st;
       selectedModule := selectedModule st; showPassword := showPassword st;
       showConfirm := showConfirm st; errors := e;
       savedMessage := savedMessage st |}).

Definition setSavedMessage (m : string) : World → World :=
  with_page (λ st,
    {| distributors := distributors st; fullName := fullName st;
       phone := phone st; username := username st; password := password st;
       confirmPassword := confirmPassword st;
       selectedModule := selectedModule st; showPassword := showPassword st;
       showConfirm := showConfirm st; errors := errors st;
       savedMessage := m |}).

(** [setDistributors(updater)]: the updater receives the current list.
    An updater that throws leaves the list as it was. *)
Definition setDistributors (updater : list value → result (list value))
    (w : World) : World :=
  match updater (distributors (page w)) with
  | Ok l =>
      {| page :=
           {| distributors := l; fullName := fullName (page w);
              phone := phone (page w); username := username (page w);
              password := password (page w);
              confirmPassword := confirmPassword (page w);
              selectedModule := selectedModule (page w);
              showPassword := showPassword (page w);
              showConfirm := showConfirm (page w); errors := errors (page w);
              savedMessage := savedMessage (page w) |};
         storage := storage w; timers := timers w;
         distributorsChanged := true |}
  | Throw _ => w
  end.

(** [setTimeout(() => resetForm(), 900)]: one more callback waits. *)
Definition setTimeout_resetForm (w : World) : World :=
  {| page := page w; storage := storage w; timers := S (timers w);
     distributorsChanged := distributorsChanged w |}.

(** ** The page: loading and persisting the list *)

(** The initializer of the [distributors] state:
    [try { ... } catch { return SAMPLE; }]. *)
Definition load (st : localStorage.Storage) : result (list value) :=
  try_catch
    (raw ← localStorage.getItem st STORAGE_KEY;
     match raw with
     | None | Some [] => Ok SAMPLE
     | Some text =>
         parsed ← JSON.parse text;
         match parsed with
         | Array elems => Ok elems
         | _ => Ok SAMPLE
         end
     end)
    (λ _, Ok SAMPLE).

(** The persistence effect:
    [try { localStorage.setItem(STORAGE_KEY, JSON.stringify(distributors)); } catch {}]. *)
Definition persist (distributors : list value) (st : localStorage.Storage)
  : localStorage.Storage :=
  let text := default (js "undefined") (JSON.stringify (Array distributors)) in
  match localStorage.setItem st STORAGE_KEY text with
  | Ok st' => st'
  | Throw _ => st
  end.

(** The derived metrics. *)
Definition metrics (distributors : list value) : result (nat * nat) :=
  flags ← mapM (λ d, m ← get_prop d (js "module");
                     Ok (strict_equal m (Str (js "dailySales")))) distributors;
  Ok (length distributors, length (filter (λ b, b = true) flags)).

(** ** The page: the form *)

Definition resetForm (w : World) : World :=
  let w := setFullName [] w in
  let w := setPhone [] w in
  let w := setUsername [] w in
  let w := setPassword [] w in
  let w := setConfirmPassword [] w in
  let w := setSelectedModule [] w in
  let w := setErrors ∅ w in
  let w := setShowPassword (λ _, false) w in
  let w := setShowConfirm (λ _, false) w in
  setSavedMessage "" w.

Definition validate (st : State) : gmap string string :=
  let e : gmap string string := ∅ in
  let e := if negb (truthy (trim (fullName st)))
           then <["fullName" := "Full name is required."]> e else e in
  let e := if negb (truthy (trim (phone st)))
           then <["phone" := "Phone number is required."]> e else e in
  let e := if negb (truthy (trim (username st)))
           then <["username" := "Username is required."]> e else e in
  let e := if negb (truthy (password st))
           then <["password" := "Password is required."]> e else e in
  let e := if negb (truthy (confirmPassword st))
           then <["confirmPassword" := "Confirm the password."]> e else e in
  let e := if truthy (password st) && truthy (confirmPassword st)
              && negb (bool_decide (password st = confirmPassword st))
           then <["confirmPassword" := "Passwords do not match."]> e else e in
  let e := if negb (truthy (selectedModule st))
           then <["selectedModule" := "Select exactly one access module."]> e
           else e in
  e.

(** [distributors.length ? Math.max(...distributors.map((d) => d.id)) + 1 : 1] *)
Definition nextId (distributors : list value) : result number :=
  if bool_decide (length distributors ≠ 0%nat) then
    ids ← mapM (λ d, get_prop d (js "id")) distributors;
    highest ← Math.max ids;
    Ok (number_add highest (Int 1))
  else Ok (Int 1).

(** The object literal that [handleSave] builds. *)
Definition newDist (id : number) (st : State) : value :=
  Object
    [ (js "id", Prim (Number id));
      (js "fullName", Prim (Str (trim (fullName st))));
      (js "phone", Prim (Str (trim (phone st))));
      (js "username", Prim (Str (trim (username st))));
      (js "module", Prim (Str (selectedModule st))) ].

(** [handleSave], run on the page as rendered.  An exception thrown while
    the next id is computed is not caught: the handler stops there, after
    [setErrors]. *)
Definition handleSave (w : World) : World :=
  let rendered := page w in
  let e := validate rendered in
  let w := setErrors e w in
  if bool_decide (size e ≠ 0%nat) then w
  else
    match nextId (distributors rendered) with
    | Throw _ => w
    | Ok id =>
        let w := setDistributors (λ prev, Ok (newDist id rendered :: prev)) w in
        let w := setSavedMessage "Distributor saved successfully." w in
        setTimeout_resetForm w
    end.

(** [prev.filter((d) => d.id !== id)] *)
Fixpoint without_id (id : primitive) (prev : list value) : result (list value) :=
  match prev with
  | [] => Ok []
  | d :: rest =>
      x ← get_prop d (js "id");
      kept ← without_id id rest;
      Ok (if negb (strict_equal x id) then d :: kept else kept)
  end.

(** [handleDelete(id)], with the answer given to [window.confirm].  The
    Delete button of a record passes the id of that record; the id is
    taken to be a primitive (an array or an object would be compared by
    reference). *)
Definition handleDelete (id : primitive) (confirmed : bool) (w : World) : World :=
  if negb confirmed then w
  else setDistributors (without_id id) w.

(** ** The page: events *)

Inductive event :=
| ChangeFullName (v : jsstring)
| ChangePhone (v : jsstring)
| ChangeUsername (v : jsstring)
| ChangePassword (v : jsstring)
| ChangeConfirmPassword (v : jsstring)
| ToggleShowPassword
| ToggleShowConfirm
| ClickTile (i : nat)
| Submit
| Cancel
| ClickDelete (id : primitive) (confirmed : bool)
| TimerFires.

Definition handle (ev : event) (w : World) : World :=
  match ev with
  | ChangeFullName v => setFullName v w
  | ChangePhone v => setPhone v w
  | ChangeUsername v => setUsername v w
  | ChangePassword v => setPassword v w
  | ChangeConfirmPassword v => setConfirmPassword v w
  | ToggleShowPassword => setShowPassword negb w
  | ToggleShowConfirm => setShowConfirm negb w
  | ClickTile i =>
      match ACCESS_MODULES !! i with
      | Some m => setSelectedModule (js (key m)) w
      | None => w
      end
  | Submit => handleSave w
  | Cancel => resetForm w
  | ClickDelete id confirmed => handleDelete id confirmed w
  | TimerFires =>
      match timers w with
      | O => w
      | S n =>
          resetForm {| page := page w; storage := storage w; timers := n;
                       distributorsChanged := distributorsChanged w |}
      end
  end.

(** After a render in which [distributors] changed, the persistence
    effect runs. *)
Definition runEffects (w : World) : World :=
  if distributorsChanged w then
    {| page := page w; storage := persist (distributors (page w)) (storage w);
       timers := timers w; distributorsChanged := false |}
  else w.

Definition step (w : World) (ev : event) : World := runEffects (handle ev w).

Definition run (w : World) (evs : list event) : World := foldl step w evs.

(** Mounting the page over a storage area: the state initializers, then
    the effect of the first render. *)
Definition mount (st : localStorage.Storage) : result World :=
  loaded ← load st;
  Ok (runEffects
        {| page :=
             {| distributors := loaded; fullName := []; phone := [];
                username := []; password := []; confirmPassword := [];
                selectedModule := []; showPassword := false;
                showConfirm := false; errors := ∅; savedMessage := "" |};
           storage := st; timers := 0; distributorsChanged := true |}).

(** ** The data model of the specification *)

(** A DistributorRecord: an integer id and four strings. *)
Record DistributorRecord := {
  rec_id : Z;
  rec_fullName : jsstring;
  rec_phone : jsstring;
  rec_username : jsstring;
  rec_module : jsstring;
}.

(** The object that represents a record. *)
Definition record_value (r : DistributorRecord) : value :=
  Object
    [ (js "id", Prim (Number (Int (rec_id r))));
      (js "fullName", Prim (Str (rec_fullName r)));
      (js "phone", Prim (Str (rec_phone r)));
      (js "username", Prim (Str (rec_username r)));
      (js "module", Prim (Str (rec_module r))) ].

(** The fixed set of modules. *)
Definition module_keys : list jsstring := map (λ m, js (key m)) ACCESS_MODULES.

(** ** Vocabulary of the statements *)

(** What may follow a number token: nothing that continues it. *)
Definition ends_number (r : jsstring) : Prop :=
  match r with
  | [] => True
  | c :: _ => is_digit c = false ∧ (c =? chr ".") = false ∧ is_e c = false
  end.

(** The JSON text of a record. *)
Definition record_members (r : DistributorRecord) : list jsstring :=
  [ JSON.quote (js "id") ++ chr ":" :: number_to_string (Int (rec_id r));
    JSON.quote (js "fullName") ++ chr ":" :: JSON.quote (rec_fullName r);
    JSON.quote (js "phone") ++ chr ":" :: JSON.quote (rec_phone r);
    JSON.quote (js "username") ++ chr ":" :: JSON.quote (rec_username r);
    JSON.quote (js "module") ++ chr ":" :: JSON.quote (rec_module r) ].

Definition record_text (r : DistributorRecord) : jsstring :=
  chr "{" :: JSON.join_commas (record_members r) ++ [chr "}"].

(** A form that passes validation: name, phone and user name not blank,
    a password, the same password again, and a module. *)
Definition valid_form (st : State) : Prop :=
  trim (fullName st) ≠ [] ∧ trim (phone st) ≠ [] ∧ trim (username st) ≠ []
  ∧ password st ≠ [] ∧ confirmPassword st = password st
  ∧ selectedModule st ≠ [].

(** The largest id of a list of records, if there is a record. *)
Definition max_id (rs : list DistributorRecord) : option Z :=
  match rs with
  | [] => None
  | r :: rs' => Some (foldl (λ m r', Z.max m (rec_id r')) (rec_id r) rs')
  end.

(** The id that [handleSave] gives to the next record of [rs]: 1 on the
    empty list, and otherwise the double nearest to the largest id plus
    one. *)
Definition next_id (rs : list DistributorRecord) : Z :=
  match max_id rs with
  | Some m => round_double (m + 1)
  | None => 1
  end.

(** The largest id is an integer whose successor is a double. *)
Definition successor_exact (rs : list DistributorRecord) : Prop :=
  ∀ m, max_id rs = Some m → (- 2 ^ 53 ≤ m < 2 ^ 53)%Z.

(** A list of records of the data model. *)
Definition record_list (l : list value) : Prop :=
  ∃ rs, l = map record_value rs.

(** The invariant of the store: ids are unique within the list, and every
    module is one of the fixed set. *)
Definition unique_ids (l : list value) : Prop :=
  NoDup (map (λ d, get_prop d (js "id")) l).

Definition modules_in_set (l : list value) : Prop :=
  Forall (λ d, ∃ m, get_prop d (js "module") = Ok (Prim (Str m))
                    ∧ m ≠ [] ∧ m ∈ module_keys) l.

Definition store_invariant (l : list value) : Prop :=
  unique_ids l ∧ modules_in_set l.

(** A list of records of the data model that satisfies the invariant. *)
Definition records_ok (l : list value) : Prop :=
  ∃ rs, l = map record_value rs
        ∧ NoDup (map rec_id rs)
        ∧ Forall (λ r, rec_module r ∈ module_keys) rs.

(** [d.id === id], false when [d.id] cannot be read. *)
Definition id_matches (id : primitive) (d : value) : bool :=
  match get_prop d (js "id") with
  | Ok x => strict_equal x id
  | Throw _ => false
  end.

(** The keys of the object that [handleSave] builds. *)
Definition record_keys : list jsstring :=
  [js "id"; js "fullName"; js "phone"; js "username"; js "module"].

(** [Object.keys(v)] *)
Definition own_keys (v : value) : list jsstring :=
  match v with
  | Object props => map fst props
  | _ => []
  end.

(** [Number.isSafeInteger]: the integers that a number holds exactly. *)
Definition safe_integer (z : Z) : Prop := (Z.abs z ≤ 2 ^ 53 - 1)%Z.

(** What the page keeps true of itself: the list is a list of records
    with unique ids and known modules, and the selected module is none
    or one of the tiles. *)
Definition page_ok (w : World) : Prop :=
  records_ok (distributors (page w))
  ∧ (selectedModule (page w) = [] ∨ selectedModule (page w) ∈ module_keys).

(** The id of the object [d] is the integer [z]. *)
Definition has_id (d : value) (z : Z) : Prop :=
  get_prop d (js "id") = Ok (Prim (Number (Int z))).

(** The number of submissions among the events. *)
Fixpoint submissions (evs : list event) : Z :=
  match evs with
  | [] => 0
  | Submit :: evs' => 1 + submissions evs'
  | _ :: evs' => submissions evs'
  end.

(** The ids of the list leave room for [n] more records: every id is an
    integer from [-2^53] up, and [n] ids above the largest, as well as [n]
    ids from 1, end at [2^53] at most, up to where the successor of a
    double is the next integer. *)
Definition ids_leave_room (n : Z) (l : list value) : Prop :=
  (n ≤ 2 ^ 53)%Z
  ∧ Forall (λ d, ∃ z, has_id d z ∧ (- 2 ^ 53 ≤ z ≤ 2 ^ 53 - n)%Z) l.

(** The name, the phone, the user name and the module of the object [d]
    are strings, as the page needs them to draw the list. *)
Definition string_fields (d : value) : Prop :=
  ∃ n p u m,
    get_prop d (js "fullName") = Ok (Prim (Str n))
    ∧ get_prop d (js "phone") = Ok (Prim (Str p))
    ∧ get_prop d (js "username") = Ok (Prim (Str u))
    ∧ get_prop d (js "module") = Ok (Prim (Str m)).

(** The page keeps the invariant of the store over objects with string
    fields, it has room for [n] more records, and the selected module is
    none or one of the tiles. *)
Definition page_has_room (n : Z) (w : World) : Prop :=
  (store_invariant (distributors (page w))
   ∧ Forall string_fields (distributors (page w)))
  ∧ ids_leave_room n (distributors (page w))
  ∧ (selectedModule (page w) = [] ∨ selectedModule (page w) ∈ module_keys).

(** The storage area takes the text that the persistence effect writes
    for the list [l]. *)
Definition accepts_write (st : localStorage.Storage) (l : list value) : Prop :=
  ∃ st', localStorage.setItem st STORAGE_KEY
           (default (js "undefined") (JSON.stringify (Array l))) = Ok st'.

(** ** Example states *)

(** The scenario of the specification: an empty store, and the form
    filled in with a name, a phone, a user name, twice the password [x]
    and the module [reports]. *)
Definition scenario : World :=
  {| page :=
       {| distributors := []; fullName := js "A B"; phone := js "123";
          username := js "ab"; password := js "x"; confirmPassword := js "x";
          selectedModule := js "reports"; showPassword := false;
          showConfirm := false; errors := ∅; savedMessage := "" |};
     storage := localStorage.Slots ∅ 5000000; timers := 0;
     distributorsChanged := false |}.

(** The scenario with three spaces as the password and as its
    confirmation. *)
Definition blank_password : World :=
  setConfirmPassword (js "   ") (setPassword (js "   ") scenario).

(** The same scenario from the start: a storage area that holds the
    empty list, and the events that fill in the form and submit it. *)
Definition empty_store : localStorage.Storage :=
  localStorage.Slots {[ STORAGE_KEY := js "[]" ]} 5000000.

Definition scenario_events : list event :=
  [ ChangeFullName (js "A B"); ChangePhone (js "123"); ChangeUsername (js "ab");
    ChangePassword (js "x"); ChangeConfirmPassword (js "x"); ClickTile 4;
    Submit ].

(** The scenario continued: the seed record is deleted and the form is
    submitted once more. *)
Definition busy_events : list event :=
  scenario_events ++ [ClickDelete (Number (Int 1)) true; Submit].

(** A page that shows two records: one with id 2, then the seed record. *)
Definition two_records : World :=
  {| page :=
       {| distributors :=
            record_value {| rec_id := 2; rec_fullName := js "A B";
                            rec_phone := js "123"; rec_username := js "ab";
                            rec_module := js "reports" |} :: SAMPLE;
          fullName := []; phone := []; username := []; password := [];
          confirmPassword := []; selectedModule := []; showPassword := false;
          showConfirm := false; errors := ∅; savedMessage := "" |};
     storage := localStorage.Slots ∅ 5000000; timers := 0;
     distributorsChanged := false |}.

(** The form of the scenario over a list of one record, whose id is
    [2^53]: the first integer whose successor is not a double. *)
Definition largest_id : World :=
  {| page :=
       {| distributors :=
            [ record_value {| rec_id := 2 ^ 53; rec_fullName := js "C D";
                              rec_phone := js "456"; rec_username := js "cd";
                              rec_module := js "outlets" |} ];
          fullName := js "A B"; phone := js "123";
          username := js "ab"; password := js "x"; confirmPassword := js "x";
          selectedModule := js "reports"; showPassword := false;
          showConfirm := false; errors := ∅; savedMessage := "" |};
     storage := localStorage.Slots ∅ 5000000; timers := 0;
     distributorsChanged := false |}.

(** The page of two records with the form filled in. *)
Definition two_records_filled : World :=
  setSelectedModule (js "outlets")
    (setPassword (js "p") (setConfirmPassword (js "p")
       (setUsername (js "u") (setPhone (js "1")
          (setFullName (js "N") two_records))))).

(** A storage area whose entry was not written by the page: two records
    share the id 1, and one has a module outside the fixed set. *)
Definition foreign_storage : localStorage.Storage :=
  localStorage.Slots
    {[ STORAGE_KEY :=
         json_text
           ("[{'id':1,'fullName':'A','phone':'1','username':'a','module':'admin'},"
            +:+ "{'id':1,'fullName':'B','phone':'2','username':'b','module':'reports'}]") ]}
    5000000.

(** A storage area whose entry holds one record, with the largest safe
    integer as its id. *)
Definition limit_storage : localStorage.Storage :=
  localStorage.Slots
    {[ STORAGE_KEY :=
         json_text
           ("[{'id':9007199254740991,'fullName':'C D','phone':'456',"
            +:+ "'username':'cd','module':'outlets'}]") ]}
    5000000.

(** A storage area whose entry is JSON but not an array. *)
Definition object_storage : localStorage.Storage :=
  localStorage.Slots {[ STORAGE_KEY := json_text "{'id':1}" ]} 5000000.

(** A storage area whose entry is not JSON. *)
Definition broken_storage : localStorage.Storage :=
  localStorage.Slots {[ STORAGE_KEY := js "[{" ]} 5000000.

(** ** The page: what the render shows *)

(** The [active] property of the tile of [m]: [selectedModule === m.key]. *)
Definition tile_active (st : State) (m : AccessModule) : bool :=
  bool_decide (selectedModule st = js (key m)).

(** The tiles drawn as active. *)
Definition active_tiles (st : State) : list AccessModule :=
  filter (λ m, tile_active st m = true) ACCESS_MODULES.

(** [s.split(sep)] for a separator of one code unit. *)
Fixpoint split_on (sep : N) (s : jsstring) : list jsstring :=
  match s with
  | [] => [[]]
  | c :: s' =>
      if c =? sep then [] :: split_on sep s'
      else
        match split_on sep s' with
        | seg :: segs => (c :: seg) :: segs
        | [] => [[c]]
        end
  end.

(** [n[0]] as [join] writes it: the first code unit, or nothing for
    [undefined]. *)
Definition first_unit (n : jsstring) : jsstring :=
  match n with
  | c :: _ => [c]
  | [] => []
  end.

Section Initials.

(** [String.prototype.toUpperCase], whose case tables are not modelled. *)
Variable toUpperCase : jsstring → jsstring.

(** The letters of the avatar of a record:
    [d.fullName.split(" ").slice(0, 2).map(n => n[0]).join("").toUpperCase()]. *)
Definition initials (fullName : jsstring) : jsstring :=
  toUpperCase (concat (map first_unit (take 2 (split_on (chr " ") fullName)))).

End Initials.

(** A text that is not empty and neither starts nor ends with white
    space. *)
Definition trimmed_text (s : jsstring) : Prop :=
  match head s, last s with
  | Some a, Some b => is_whitespace a = false ∧ is_whitespace b = false
  | _, _ => False
  end.

(** The events whose handler may call [setDistributors]. *)
Definition sets_list (ev : event) : bool :=
  match ev with
  | Submit | ClickDelete _ true => true
  | _ => false
  end.

(** * Examples *)

Example trim_example : trim (js "  A B  ") = js "A B".
Proof. reflexivity. Qed.

Example StringToNumber_examples :
  map StringToNumber [js " 12 "; js ""; js "0x1F"; js "12px"; js "1.50"; js "-Infinity"]
  = [Int 12; Int 0; Int 31; NaN; Dec 15 1; NegInf].
Proof. vm_compute. reflexivity. Qed.

Example number_to_string_examples :
  map number_to_string [Int 0; Int (-5); Int (10 ^ 21); Dec 15 1; Dec 1 7]
  = [js "0"; js "-5"; js "1e+21"; js "1.5"; js "1e-7"].
Proof. vm_compute. reflexivity. Qed.

Example round_double_examples :
  map round_double
    [2 ^ 53 - 1; 2 ^ 53; 2 ^ 53 + 1; 2 ^ 53 + 2; 2 ^ 53 + 3; - 2 ^ 53 - 1; 10 ^ 23]%Z
  = [2 ^ 53 - 1; 2 ^ 53; 2 ^ 53; 2 ^ 53 + 2; 2 ^ 53 + 4; - 2 ^ 53;
     99999999999999991611392]%Z.
Proof. vm_compute. reflexivity. Qed.

Example number_add_examples :
  map (λ x, number_add x (Int 1))
    [Int 1; Int (2 ^ 53 - 1); Int (2 ^ 53); Dec 15 1; Dec (-5) 1; PosInf; NaN]
  = [Int 2; Int (2 ^ 53); Int (2 ^ 53); Dec 25 1; Dec 5 1; PosInf; NaN].
Proof. vm_compute. reflexivity. Qed.

Example large_integers :
  StringToNumber (js "9007199254740993") = Int 9007199254740992
  ∧ StringToNumber (js "1e400") = PosInf
  ∧ map number_to_string [Int (2 ^ 53); Int (2 ^ 60); Int (round_double (10 ^ 23))]
    = [js "9007199254740992"; js "1152921504606847000"; js "1e+23"].
Proof. repeat split; vm_compute; reflexivity. Qed.

Example Math_max_examples :
  Math.max [Prim (Number (Int 3)); Prim (Str (js "10")); Prim Null] = Ok (Int 10)
  ∧ Math.max [Prim (Number (Int 3)); Prim Undefined] = Ok NaN
  ∧ Math.max [] = Ok NegInf.
Proof. repeat split; vm_compute; reflexivity. Qed.

Example JSON_parse_example :
  JSON.parse (json_text " [1, {'b':null,'1':true,'b':false}, 'a\u0041\n', -2.50e1] ")
  = Ok (Array [ Prim (Number (Int 1));
                Object [ (js "1", Prim (Bool true)); (js "b", Prim (Bool false)) ];
                Prim (Str [chr "a"; chr "A"; 0x0A]);
                Prim (Number (Int (-25))) ]).
Proof. vm_compute. reflexivity. Qed.

Example JSON_parse_errors :
  map JSON.parse [js ""; js "[1,]"; js "01"; json_text "{'a':1,}"; js "[1 2]"; js "nul"]
  = replicate 6 (Throw SyntaxError).
Proof. vm_compute. reflexivity. Qed.

Example JSON_stringify_example :
  JSON.stringify
    (Array [ Prim (Str [chr "a"; quotation_mark; 0x0A; 0xD800]);
             Prim (Number NaN); Prim Undefined;
             Object [ (js "p", Prim Undefined); (js "q", Prim (Number (Int 7))) ] ])
  = Some (json_text "['a\'\n\ud800',null,null,{'q':7}]").
Proof. vm_compute. reflexivity. Qed.

Example nextId_SAMPLE : nextId SAMPLE = Ok (Int 2).
Proof. vm_compute. reflexivity. Qed.

Example nextId_largest_id :
  nextId (distributors (page largest_id)) = Ok (Int (2 ^ 53)).
Proof. vm_compute. reflexivity. Qed.

(** The scenario of the specification: from the empty store, filling in
    the form and submitting gives a list of one record, with id 1 and the
    module [reports], and the storage entry holds that list. *)
Example specification_scenario :
  ∃ w, mount empty_store = Ok w
       ∧ distributors (page (run w scenario_events))
         = [ record_value {| rec_id := 1; rec_fullName := js "A B";
                             rec_phone := js "123"; rec_username := js "ab";
                             rec_module := js "reports" |} ]
       ∧ load (storage (run w scenario_events))
         = Ok (distributors (page (run w scenario_events))).
Proof. eexists. split; [reflexivity|]. split; vm_compute; reflexivity. Qed.

(** * Facts about the built-ins *)

(** ** Truthiness and trimming *)

Lemma truthy_true (s : jsstring) : truthy s = true ↔ s ≠ [].
Proof. destruct s; simpl; split; congruence. Qed.

Lemma truthy_false (s : jsstring) : truthy s = false ↔ s = [].
Proof. destruct s; simpl; split; congruence. Qed.

Lemma trim_nil : trim [] = [].
Proof. reflexivity. Qed.

Lemma trim_whitespace (s : jsstring) :
  Forall (λ c, is_whitespace c = true) s → trim s = [].
Proof.
  unfold trim. induction 1 as [|c s Hc _ IH]; [reflexivity|].
  cbn [trimStart]. by rewrite Hc.
Qed.

(** ** Decimal digits *)

Lemma is_digit_chars_of_uint (d : uint) :
  Forall (λ c, is_digit c = true) (chars_of_uint d).
Proof. induction d; simpl; constructor; auto. Qed.

Lemma scan_digits_chars (d : uint) (r : jsstring) :
  head (is_digit <$> r) ≠ Some true →
  scan_digits (chars_of_uint d ++ r) = (d, r).
Proof.
  intros Hr.
  induction d; simpl; try (rewrite IHd; reflexivity).
  destruct r as [|c r]; [reflexivity|].
  simpl in *. destruct (is_digit c); [congruence | reflexivity].
Qed.

Lemma to_uint_unorm (n : N) : unorm (N.to_uint n) = N.to_uint n.
Proof.
  rewrite <- DecimalN.Unsigned.to_of.
  by rewrite DecimalN.Unsigned.of_to.
Qed.

(** The digits of a number other than zero do not start with a zero. *)
Lemma to_uint_head (n : N) (d : uint) : N.to_uint n = D0 d → n = 0.
Proof.
  intros H.
  pose proof (to_uint_unorm n) as Hn. rewrite H in Hn.
  unfold unorm in Hn.
  destruct (nzhead (D0 d)) eqn:Hz; try discriminate Hn.
  - rewrite <- (DecimalN.Unsigned.of_to n), H.
    inversion Hn; subst. reflexivity.
  - exfalso; eapply DecimalFacts.nzhead_nonzero; exact Hz.
Qed.

Lemma to_uint_nonnil (n : N) : N.to_uint n ≠ Nil.
Proof.
  rewrite <- to_uint_unorm. apply DecimalFacts.unorm_nonnil.
Qed.

(** ** Doubles *)

Lemma round_double_exact (z : Z) : (Z.abs z ≤ 2 ^ 53)%Z → round_double z = z.
Proof.
  intros H. destruct (Z.eq_dec (Z.abs z) (2 ^ 53)%Z) as [He|Hne].
  - assert (Hz : z = (2 ^ 53)%Z ∨ z = (- 2 ^ 53)%Z) by lia.
    destruct Hz as [-> | ->]; reflexivity.
  - unfold round_double.
    assert (Hk : (Z.log2 (Z.abs z) - 52 ≤ 0)%Z).
    { destruct (Z.eq_dec (Z.abs z) 0%Z) as [->|Hnz]; [done|].
      assert (Z.log2 (Z.abs z) < 53)%Z by (apply Z.log2_lt_pow2; lia). lia. }
    apply Z.leb_le in Hk. by rewrite Hk.
Qed.

(** From [2^53] on, rounding keeps the leading 53 bits or carries into
    them. *)
Lemma round_double_lower (x : Z) :
  (2 ^ 53 ≤ x)%Z →
  (2 ^ Z.log2 x ≤ round_double x
   ∧ x / 2 ^ (Z.log2 x - 52) * 2 ^ (Z.log2 x - 52) ≤ round_double x)%Z.
Proof.
  intros Hx.
  assert (Hpos : (0 < x)%Z) by lia.
  assert (HL : (53 ≤ Z.log2 x)%Z) by (apply Z.log2_le_pow2; lia).
  destruct (Z.log2_spec x Hpos) as [Hlo Hhi].
  unfold round_double. rewrite Z.abs_eq by lia.
  set (k := (Z.log2 x - 52)%Z) in *.
  rewrite (proj2 (Z.leb_gt k 0%Z)) by lia.
  rewrite Z.sgn_pos by lia. rewrite Z.mul_1_l.
  assert (Hp : (0 < 2 ^ k)%Z) by (apply Z.pow_pos_nonneg; lia).
  assert (Hq : (2 ^ 52 ≤ x / 2 ^ k)%Z).
  { apply Z.div_le_lower_bound; [lia|].
    rewrite <- Z.pow_add_r by lia. replace (k + 52)%Z with (Z.log2 x) by lia. lia. }
  assert (Hsplit : (2 ^ Z.log2 x = 2 ^ 52 * 2 ^ k)%Z).
  { rewrite <- Z.pow_add_r by lia. f_equal. lia. }
  set (q := (x / 2 ^ k)%Z) in *.
  assert (Hge : ∀ q', (q ≤ q')%Z → (2 ^ Z.log2 x ≤ q' * 2 ^ k ∧ q * 2 ^ k ≤ q' * 2 ^ k)%Z).
  { intros q' Hq'. rewrite Hsplit. split; apply Z.mul_le_mono_nonneg_r; lia. }
  repeat case_match; apply Hge; lia.
Qed.

Lemma round_double_large (x : Z) : (2 ^ 53 ≤ x)%Z → (2 ^ 53 ≤ round_double x)%Z.
Proof.
  intros Hx. destruct (round_double_lower x Hx) as [H _].
  assert (HL : (53 ≤ Z.log2 x)%Z) by (apply Z.log2_le_pow2; lia).
  assert (2 ^ 53 ≤ 2 ^ Z.log2 x)%Z by (apply Z.pow_le_mono_r; lia). lia.
Qed.

Lemma round_double_above (x : Z) :
  (2 ^ 53 + 1 < x)%Z → (2 ^ 53 < round_double x)%Z.
Proof.
  intros Hx. destruct (round_double_lower x) as [H1 H2]; [lia|].
  assert (HL : (53 ≤ Z.log2 x)%Z) by (apply Z.log2_le_pow2; lia).
  destruct (Z.eq_dec (Z.log2 x) 53%Z) as [He|Hne].
  - rewrite He in H2. change (2 ^ (53 - 52))%Z with 2%Z in H2.
    pose proof (Z.div_mod x 2%Z). pose proof (Z.mod_pos_bound x 2%Z). lia.
  - assert (2 ^ 54 ≤ 2 ^ Z.log2 x)%Z by (apply Z.pow_le_mono_r; lia).
    assert (2 ^ 53 < 2 ^ 54)%Z by reflexivity. lia.
Qed.

Lemma number_of_integer_exact (z : Z) :
  (Z.abs z ≤ 2 ^ 53)%Z → number_of_integer z = Int z.
Proof.
  intros H. unfold number_of_integer. rewrite round_double_exact by done.
  assert (Hc : (2 ^ 53 < 2 ^ 1024)%Z) by reflexivity.
  rewrite (proj2 (Z.leb_gt _ _)) by lia. reflexivity.
Qed.

(** Up to [2^53] an integer is its own shortest decimal. *)
Lemma shortest_decimal_exact (j : nat) (z : Z) :
  (0 ≤ z ≤ 2 ^ 53)%Z → shortest_decimal j z = z.
Proof.
  intros Hz. induction j as [|j IH].
  - cbn [shortest_decimal]. unfold pow10. change (10 ^ Z.of_nat 0)%Z with 1%Z.
    rewrite Z.div_1_r, Z.mul_1_r, round_double_exact by lia.
    rewrite Z.eqb_refl. rewrite (proj2 (Z.ltb_lt (z - z) (z + 1 - z))) by lia.
    cbn [orb andb]. by rewrite orb_true_r.
  - cbn [shortest_decimal].
    assert (Hp : pow10 (S j) = (2 * (5 * pow10 j))%Z).
    { unfold pow10. rewrite Nat2Z.inj_succ, Z.pow_succ_r by lia. lia. }
    assert (Hpos : (0 < pow10 j)%Z) by (unfold pow10; apply Z.pow_pos_nonneg; lia).
    set (p := pow10 (S j)) in *.
    pose proof (Z.div_mod z p ltac:(lia)) as Hdiv.
    pose proof (Z.mod_pos_bound z p ltac:(lia)) as Hmod.
    assert (Hq : (0 ≤ z / p)%Z) by (apply Z.div_pos; lia).
    set (lo := (z / p * p)%Z) in *.
    assert (Hlo : (0 ≤ lo ≤ z ∧ z < lo + p)%Z) by (subst lo; nia).
    destruct (Z.eqb_spec (round_double lo) z) as [Hl|Hl].
    + rewrite round_double_exact in Hl by lia.
      destruct (Z.eqb_spec (round_double (lo + p)) z) as [Hh|Hh];
        cbn [negb orb andb]; [|exact Hl].
      exfalso. destruct (Z_le_gt_dec (lo + p) (2 ^ 53)) as [Hle|Hgt].
      * rewrite round_double_exact in Hh by lia. lia.
      * pose proof (round_double_large (lo + p)). lia.
    + cbn [andb].
      destruct (Z.eqb_spec (round_double (lo + p)) z) as [Hh|Hh]; [|exact IH].
      exfalso. destruct (Z_le_gt_dec (lo + p) (2 ^ 53)) as [Hle|Hgt].
      * rewrite round_double_exact in Hh by lia. lia.
      * destruct (Z_le_gt_dec (lo + p) (2 ^ 53 + 1)) as [Hle1|Hgt1].
        -- assert (Hodd : (lo + p = 2 * ((z / p + 1) * (5 * pow10 j)))%Z)
             by (subst lo; lia).
           lia.
        -- pose proof (round_double_above (lo + p)). lia.
Qed.

(** Up to [2^53] an integer is written with all its digits. *)
Lemma number_to_string_int (z : Z) :
  (Z.abs z ≤ 2 ^ 53)%Z →
  number_to_string (Int z)
  = (if (z <? 0)%Z then [chr "-"] else []) ++ digits (Z.abs_N z).
Proof.
  intros Hz. unfold number_to_string.
  rewrite shortest_decimal_exact by lia.
  assert (Hc : (2 ^ 53 < 10 ^ 21)%Z) by reflexivity.
  rewrite (proj2 (Z.ltb_lt (Z.abs z) _)) by lia.
  by replace (Z.abs_N (Z.abs z)) with (Z.abs_N z) by (by destruct z).
Qed.

(** ** Integers through [JSON.parse] *)

Lemma number_of_literal_int (neg : bool) (n : N) :
  (Z.of_N n ≤ 2 ^ 53)%Z →
  number_of_literal neg (N.to_uint n) Nil 0
  = Int (if neg then - Z.of_N n else Z.of_N n)%Z.
Proof.
  intros Hn. unfold number_of_literal.
  rewrite DecimalFacts.app_nil_r, DecimalN.Unsigned.of_to. simpl.
  rewrite Z.mul_1_r. apply number_of_integer_exact. destruct neg; lia.
Qed.

Lemma parse_int_digits (n : N) (r : jsstring) :
  ends_number r →
  JSON.parse_int (digits n ++ r) = Some (N.to_uint n, r).
Proof.
  intros Hr.
  assert (Hscan : scan_digits (digits n ++ r) = (N.to_uint n, r)).
  { apply scan_digits_chars. destruct r as [|c r]; simpl; [done|].
    destruct Hr as (-> & _). done. }
  unfold JSON.parse_int. revert Hscan. unfold digits.
  destruct (N.to_uint n) eqn:Hd; intros Hscan;
    try (by apply to_uint_nonnil in Hd);
    try (cbn [chars_of_uint app] in *; rewrite Hscan; reflexivity).
  apply to_uint_head in Hd as Hn. subst n. vm_compute in Hd.
  inversion Hd; subst. reflexivity.
Qed.

Lemma parse_frac_none (r : jsstring) :
  ends_number r → JSON.parse_frac r = Some (Nil, r).
Proof.
  destruct r as [|c r]; [done|]. intros (_ & Hdot & _).
  unfold JSON.parse_frac. by rewrite Hdot.
Qed.

Lemma parse_exp_none (r : jsstring) :
  ends_number r → JSON.parse_exp r = Some (0%Z, r).
Proof.
  destruct r as [|c r]; [done|]. intros (_ & _ & He).
  unfold JSON.parse_exp. by rewrite He.
Qed.

Lemma digits_not_minus (n : N) (r : jsstring) :
  match digits n ++ r with
  | c :: s' => if c =? chr "-" then (true, s') else (false, digits n ++ r)
  | [] => (false, [])
  end = (false, digits n ++ r).
Proof.
  unfold digits. pose proof (to_uint_nonnil n).
  destruct (N.to_uint n); try done; reflexivity.
Qed.

Lemma parse_number_int (z : Z) (r : jsstring) :
  (Z.abs z ≤ 2 ^ 53)%Z →
  ends_number r →
  JSON.parse_number (number_to_string (Int z) ++ r) = Some (Int z, r).
Proof.
  intros Hz Hr. rewrite number_to_string_int by done.
  unfold JSON.parse_number.
  destruct (Z.ltb_spec z 0) as [Hneg|Hneg].
  - cbn [app]. change (chr "-" =? chr "-") with true. cbv iota.
    rewrite parse_int_digits by done. cbn [mbind option_bind].
    rewrite parse_frac_none by done. cbn [mbind option_bind].
    rewrite parse_exp_none by done. cbn [mbind option_bind].
    rewrite number_of_literal_int, N2Z.inj_abs_N by lia. do 3 f_equal. lia.
  - cbn [app]. rewrite digits_not_minus.
    rewrite parse_int_digits by done. cbn [mbind option_bind].
    rewrite parse_frac_none by done. cbn [mbind option_bind].
    rewrite parse_exp_none by done. cbn [mbind option_bind].
    rewrite number_of_literal_int, N2Z.inj_abs_N by lia. do 3 f_equal. lia.
Qed.

(** ** Strings through [JSON.parse] *)

Lemma radix_digit_hex (d : N) :
  d < 16 → radix_digit 16 (JSON.hex_digit d) = Some d.
Proof.
  intros Hd.
  assert (H : d ∈ [0; 1; 2; 3; 4; 5; 6; 7; 8; 9; 10; 11; 12; 13; 14; 15]).
  { rewrite !elem_of_cons. lia. }
  rewrite !elem_of_cons in H.
  repeat (destruct H as [-> | H]; [reflexivity|]).
  by apply elem_of_nil in H.
Qed.

Lemma hex4_escape (c : N) :
  c < 65536 →
  JSON.hex4 (JSON.hex_digit (c / 4096 mod 16)) (JSON.hex_digit (c / 256 mod 16))
            (JSON.hex_digit (c / 16 mod 16)) (JSON.hex_digit (c mod 16))
  = Some c.
Proof.
  intros Hc. unfold JSON.hex4.
  rewrite !radix_digit_hex by (apply N.mod_lt; lia).
  cbn [mbind option_bind]. f_equal.
  pose proof (N.div_mod' c 16) as H0.
  pose proof (N.div_mod' (c / 16) 16) as H1.
  pose proof (N.div_mod' (c / 256) 16) as H2.
  pose proof (N.Div0.div_div c 16 16) as H3.
  pose proof (N.Div0.div_div c 256 16) as H4.
  change (16 * 16) with 256 in *. change (256 * 16) with 4096 in *.
  assert (c / 4096 < 16) by (apply N.Div0.div_lt_upper_bound; lia).
  rewrite (N.mod_small (c / 4096) 16) by done.
  lia.
Qed.

Lemma parse_units_escape (c : N) (t : jsstring) :
  c < 65536 →
  JSON.parse_units (JSON.unicode_escape c ++ t)
  = '(t', r) ← JSON.parse_units t; Some (c :: t', r).
Proof.
  intros Hc. unfold JSON.unicode_escape. cbn [app JSON.parse_units].
  change (chr "\" =? quotation_mark) with false.
  change (chr "\" =? chr "\") with true.
  change (chr "u" =? chr "u") with true. cbv iota.
  rewrite hex4_escape by done. reflexivity.
Qed.

Lemma parse_units_literal (c : N) (t : jsstring) :
  c ≠ quotation_mark → c ≠ chr "\" → 0x20 ≤ c →
  JSON.parse_units (c :: t)
  = '(t', r) ← JSON.parse_units t; Some (c :: t', r).
Proof.
  intros H1 H2 H3. cbn [JSON.parse_units].
  apply N.eqb_neq in H1, H2. rewrite H1, H2.
  apply N.ltb_ge in H3. by rewrite H3.
Qed.

Lemma parse_units_quote_unit (c : N) (t : jsstring) :
  JSON.parse_units (JSON.quote_unit c ++ t)
  = '(t', r) ← JSON.parse_units t; Some (c :: t', r).
Proof.
  unfold JSON.quote_unit.
  repeat match goal with
         | |- context [N.eqb c ?k] => destruct (N.eqb_spec c k); [subst; reflexivity|]
         end.
  destruct (N.ltb_spec c 0x20).
  - apply parse_units_escape. lia.
  - by apply parse_units_literal.
Qed.

Lemma parse_units_quote_units (s r : jsstring) :
  JSON.parse_units (JSON.quote_units s ++ quotation_mark :: r) = Some (s, r).
Proof.
  remember (length s) as n eqn:Hn.
  revert s Hn. induction (lt_wf n) as [n _ IH]. intros s ->.
  destruct s as [|c s]; [reflexivity|].
  cbn [JSON.quote_units].
  destruct (JSON.is_high_surrogate c) eqn:Hh.
  - unfold JSON.is_high_surrogate in Hh.
    apply andb_true_iff in Hh as [Hh1%N.leb_le Hh2%N.leb_le].
    destruct s as [|c2 s].
    + rewrite parse_units_escape by lia. reflexivity.
    + destruct (JSON.is_low_surrogate c2) eqn:Hl.
      * unfold JSON.is_low_surrogate in Hl.
        apply andb_true_iff in Hl as [Hl1%N.leb_le Hl2%N.leb_le].
        cbn [app].
        rewrite parse_units_literal by (unfold quotation_mark; cbn; lia).
        rewrite parse_units_literal by (unfold quotation_mark; cbn; lia).
        rewrite (IH (length s)) by (simpl; first [lia | done]). reflexivity.
      * rewrite <- app_assoc, parse_units_escape by lia.
        rewrite (IH (length (c2 :: s))) by (simpl; first [lia | done]). reflexivity.
  - destruct (JSON.is_low_surrogate c) eqn:Hl.
    + unfold JSON.is_low_surrogate in Hl.
      apply andb_true_iff in Hl as [Hl1%N.leb_le Hl2%N.leb_le].
      rewrite <- app_assoc, parse_units_escape by lia.
      rewrite (IH (length s)) by (simpl; first [lia | done]). reflexivity.
    + rewrite <- app_assoc, parse_units_quote_unit.
      rewrite (IH (length s)) by (simpl; first [lia | done]). reflexivity.
Qed.

(** ** Values through [JSON.parse] *)

Lemma parse_value_string (fuel : nat) (s r : jsstring) :
  JSON.parse_value (S fuel) (JSON.quote s ++ r) = Some (Prim (Str s), r).
Proof.
  unfold JSON.quote. rewrite <- app_comm_cons, <- app_assoc.
  cbn [JSON.parse_value JSON.skip_ws app].
  change (JSON.is_ws quotation_mark) with false. cbv iota.
  change (quotation_mark =? chr "{") with false.
  change (quotation_mark =? chr "[") with false.
  change (quotation_mark =? quotation_mark) with true. cbv iota.
  by rewrite parse_units_quote_units.
Qed.

Lemma number_string_head (z : Z) (r : jsstring) :
  (Z.abs z ≤ 2 ^ 53)%Z →
  ∃ c s, number_to_string (Int z) ++ r = c :: s
         ∧ c ∈ [chr "-"; chr "0"; chr "1"; chr "2"; chr "3"; chr "4";
                chr "5"; chr "6"; chr "7"; chr "8"; chr "9"].
Proof.
  intros Hz. rewrite number_to_string_int by done.
  destruct (z <? 0)%Z.
  - eexists _, _. split; [reflexivity|]. set_solver.
  - unfold digits. pose proof (to_uint_nonnil (Z.abs_N z)).
    destruct (N.to_uint (Z.abs_N z)); try done;
      (eexists _, _; split; [reflexivity|]; set_solver).
Qed.

Lemma parse_value_int (fuel : nat) (z : Z) (r : jsstring) :
  (Z.abs z ≤ 2 ^ 53)%Z →
  ends_number r →
  JSON.parse_value (S fuel) (number_to_string (Int z) ++ r)
  = Some (Prim (Number (Int z)), r).
Proof.
  intros Hz Hr.
  pose proof (parse_number_int z r Hz Hr) as Hnum.
  destruct (number_string_head z r Hz) as (c & s & Heq & Hc).
  rewrite Heq in *.
  rewrite !elem_of_cons in Hc.
  cbn [JSON.parse_value].
  repeat (destruct Hc as [-> | Hc];
          [cbn [JSON.skip_ws]; vm_compute JSON.is_ws; cbv iota;
           repeat match goal with
                  | |- context [N.eqb ?a ?b] =>
                      let v := eval vm_compute in (N.eqb a b) in
                      change (N.eqb a b) with v; cbv iota
                  end;
           by rewrite Hnum|]).
  by apply elem_of_nil in Hc.
Qed.

Lemma parse_members_more (fuel : nat) (k vtext : jsstring) (v : value)
    (more : jsstring) :
  JSON.parse_value fuel (vtext ++ chr "," :: more) = Some (v, chr "," :: more) →
  JSON.parse_members (S fuel)
    (JSON.quote k ++ chr ":" :: vtext ++ chr "," :: more)
  = '(ms, r) ← JSON.parse_members fuel more; Some ((k, v) :: ms, r).
Proof.
  intros Hv. unfold JSON.quote.
  rewrite <- app_comm_cons, <- app_assoc.
  cbn [JSON.parse_members JSON.skip_ws app].
  change (JSON.is_ws quotation_mark) with false. cbv iota.
  change (quotation_mark =? quotation_mark) with true. cbv iota.
  rewrite parse_units_quote_units. cbn [mbind option_bind JSON.skip_ws].
  change (JSON.is_ws (chr ":")) with false. cbv iota.
  change (chr ":" =? chr ":") with true. cbv iota.
  rewrite Hv. cbn [mbind option_bind JSON.skip_ws].
  change (JSON.is_ws (chr ",")) with false. cbv iota.
  change (chr "," =? chr ",") with true. cbv iota.
  reflexivity.
Qed.

Lemma parse_members_last (fuel : nat) (k vtext : jsstring) (v : value)
    (rest : jsstring) :
  JSON.parse_value fuel (vtext ++ chr "}" :: rest) = Some (v, chr "}" :: rest) →
  JSON.parse_members (S fuel)
    (JSON.quote k ++ chr ":" :: vtext ++ chr "}" :: rest)
  = Some ([(k, v)], rest).
Proof.
  intros Hv. unfold JSON.quote.
  rewrite <- app_comm_cons, <- app_assoc.
  cbn [JSON.parse_members JSON.skip_ws app].
  change (JSON.is_ws quotation_mark) with false. cbv iota.
  change (quotation_mark =? quotation_mark) with true. cbv iota.
  rewrite parse_units_quote_units. cbn [mbind option_bind JSON.skip_ws].
  change (JSON.is_ws (chr ":")) with false. cbv iota.
  change (chr ":" =? chr ":") with true. cbv iota.
  rewrite Hv. cbn [mbind option_bind JSON.skip_ws].
  change (JSON.is_ws (chr "}")) with false. cbv iota.
  change (chr "}" =? chr ",") with false.
  change (chr "}" =? chr "}") with true. cbv iota.
  reflexivity.
Qed.

Lemma parse_object_nonempty (fuel : nat) (text : jsstring) :
  head text = Some quotation_mark →
  JSON.parse_value (S fuel) (chr "{" :: text)
  = '(ms, r) ← JSON.parse_members fuel text; Some (object_of ms, r).
Proof.
  destruct text as [|c t]; [done|]. intros [= ->]. reflexivity.
Qed.

Lemma parse_array_nonempty (fuel : nat) (text : jsstring) :
  head text = Some (chr "{") →
  JSON.parse_value (S fuel) (chr "[" :: text)
  = '(vs, r) ← JSON.parse_elements fuel text; Some (Array vs, r).
Proof.
  destruct text as [|c t]; [done|]. intros [= ->]. reflexivity.
Qed.

Lemma serialize_record (r : DistributorRecord) :
  JSON.serialize (record_value r) = Some (record_text r).
Proof. reflexivity. Qed.

Lemma ends_number_comma (more : jsstring) : ends_number (chr "," :: more).
Proof. repeat split. Qed.

Lemma parse_value_record (fuel : nat) (r : DistributorRecord) (rest : jsstring) :
  (Z.abs (rec_id r) ≤ 2 ^ 53)%Z →
  JSON.parse_value (7 + fuel) (record_text r ++ rest)
  = Some (record_value r, rest).
Proof.
  intros Hid. unfold record_text, record_members.
  cbn [JSON.join_commas].
  rewrite <- app_comm_cons.
  repeat (rewrite <- app_assoc; rewrite <- app_comm_cons).
  cbn [Nat.add app].
  rewrite parse_object_nonempty by reflexivity.
  rewrite (parse_members_more _ _ _ (Prim (Number (Int (rec_id r)))))
    by (apply parse_value_int; [done | apply ends_number_comma]).
  rewrite (parse_members_more _ _ _ (Prim (Str (rec_fullName r))))
    by apply parse_value_string.
  rewrite (parse_members_more _ _ _ (Prim (Str (rec_phone r))))
    by apply parse_value_string.
  rewrite (parse_members_more _ _ _ (Prim (Str (rec_username r))))
    by apply parse_value_string.
  rewrite (parse_members_last _ _ _ (Prim (Str (rec_module r))))
    by apply parse_value_string.
  reflexivity.
Qed.

(** ** The list of records through [JSON.stringify] and [JSON.parse] *)

Lemma stringify_records (rs : list DistributorRecord) :
  JSON.stringify (Array (map record_value rs))
  = Some (chr "[" :: JSON.join_commas (map record_text rs) ++ [chr "]"]).
Proof.
  unfold JSON.stringify. cbn [JSON.serialize].
  replace (map (λ x, default (js "null") (JSON.serialize x)) (map record_value rs))
    with (map record_text rs); [done|].
  induction rs as [|r rs IH]; [done|].
  cbn [map]. by rewrite <- IH.
Qed.

Lemma parse_elements_records (rs : list DistributorRecord) :
  ∀ (r0 : DistributorRecord) (fuel : nat) (rest : jsstring),
    Forall (λ r, (Z.abs (rec_id r) ≤ 2 ^ 53)%Z) (r0 :: rs) →
    JSON.parse_elements (length rs + 8 + fuel)
      (JSON.join_commas (map record_text (r0 :: rs)) ++ chr "]" :: rest)
    = Some (map record_value (r0 :: rs), rest).
Proof.
  induction rs as [|r1 rs IH]; intros r0 fuel rest Hsafe.
  - apply Forall_cons in Hsafe as [H0 _].
    cbn [map JSON.join_commas length Nat.add JSON.parse_elements].
    rewrite (parse_value_record fuel r0) by done.
    reflexivity.
  - apply Forall_cons in Hsafe as [H0 Hsafe].
    change (JSON.join_commas (map record_text (r0 :: r1 :: rs)))
      with (record_text r0 ++ chr "," :: JSON.join_commas (map record_text (r1 :: rs))).
    rewrite <- app_assoc, <- app_comm_cons.
    replace (length (r1 :: rs) + 8 + fuel)%nat
      with (S (7 + (length rs + 1 + fuel)))%nat by (simpl; lia).
    cbn [JSON.parse_elements].
    rewrite (parse_value_record _ r0) by done.
    cbn [mbind option_bind JSON.skip_ws].
    change (JSON.is_ws (chr ",")) with false. cbv iota.
    change (chr "," =? chr ",") with true. cbv iota.
    replace (7 + (length rs + 1 + fuel))%nat
      with (length rs + 8 + fuel)%nat by lia.
    rewrite IH by done. reflexivity.
Qed.

Lemma length_record_text (r : DistributorRecord) : (2 ≤ length (record_text r))%nat.
Proof. unfold record_text. cbn [length]. rewrite length_app. simpl. lia. Qed.

Lemma length_join_records (rs : list DistributorRecord) :
  (2 * length rs ≤ length (JSON.join_commas (map record_text rs)))%nat.
Proof.
  induction rs as [|r0 [|r1 rs] IH].
  - simpl. lia.
  - pose proof (length_record_text r0). simpl in *. lia.
  - pose proof (length_record_text r0).
    change (JSON.join_commas (map record_text (r0 :: r1 :: rs)))
      with (record_text r0 ++ chr "," :: JSON.join_commas (map record_text (r1 :: rs))).
    rewrite length_app. cbn [length] in *. lia.
Qed.

(** [JSON.parse] reads back what [JSON.stringify] wrote for a list of
    records. *)
Lemma parse_stringify_records (rs : list DistributorRecord) (text : jsstring) :
  Forall (λ r, (Z.abs (rec_id r) ≤ 2 ^ 53)%Z) rs →
  JSON.stringify (Array (map record_value rs)) = Some text →
  JSON.parse text = Ok (Array (map record_value rs)).
Proof.
  intros Hsafe. rewrite stringify_records. intros Htext.
  assert (text = chr "[" :: JSON.join_commas (map record_text rs) ++ [chr "]"])
    as -> by congruence.
  clear Htext. destruct rs as [|r0 rs]; [reflexivity|].
  unfold JSON.parse.
  pose proof (length_join_records (r0 :: rs)) as Hlen.
  set (body := JSON.join_commas (map record_text (r0 :: rs))) in *.
  replace (2 * length (chr "[" :: body ++ [chr "]"]) + 2)%nat
    with (S (length rs + 8
             + (2 * length (chr "[" :: body ++ [chr "]"]) + 1 - length rs - 8)))%nat.
  2:{ cbn [length] in *. rewrite length_app. simpl. lia. }
  rewrite parse_array_nonempty.
  2:{ subst body. destruct rs; reflexivity. }
  subst body. cbn [app].
  rewrite parse_elements_records by done.
  reflexivity.
Qed.

(** ** [JSON.parse] has fuel to spare *)

Lemma skip_ws_length (s : jsstring) : (length (JSON.skip_ws s) ≤ length s)%nat.
Proof.
  induction s as [|c s IH]; [done|]. cbn [JSON.skip_ws].
  destruct (JSON.is_ws c); cbn [length]; lia.
Qed.

Lemma skip_ws_cons_length (s : jsstring) (c : N) (s1 : jsstring) :
  JSON.skip_ws s = c :: s1 → (S (length s1) ≤ length s)%nat.
Proof.
  intros H. pose proof (skip_ws_length s) as Hl. rewrite H in Hl. exact Hl.
Qed.

Lemma scan_digits_length (s : jsstring) (d : uint) (r : jsstring) :
  scan_digits s = (d, r) → (length r ≤ length s)%nat.
Proof.
  revert d r. induction s as [|c s IH]; intros d r; cbn [scan_digits].
  - intros [= <- <-]. done.
  - destruct (is_digit c).
    + destruct (scan_digits s) as [d' r'] eqn:Hs. intros [= <- <-].
      specialize (IH _ _ eq_refl). cbn [length]. lia.
    + intros [= <- <-]. done.
Qed.

Lemma parse_units_length (s t r : jsstring) :
  JSON.parse_units s = Some (t, r) → (length r < length s)%nat.
Proof.
  remember (length s) as n eqn:Hn. revert s t r Hn.
  induction (lt_wf n) as [n _ IH]. intros s t r -> H.
  destruct s as [|c s1]; [discriminate|]. cbn [JSON.parse_units] in H.
  destruct (c =? quotation_mark).
  { injection H as <- <-. cbn [length]. lia. }
  destruct (c =? chr "\").
  - destruct s1 as [|e s2]; [discriminate|].
    destruct (e =? chr "u").
    + destruct s2 as [|h1 [|h2 [|h3 [|h4 s3]]]]; try discriminate.
      destruct (JSON.hex4 h1 h2 h3 h4); [|discriminate].
      cbn [mbind option_bind] in H.
      destruct (JSON.parse_units s3) as [[t' r']|] eqn:Hs; [|discriminate].
      injection H as <- <-.
      assert (length r' < length s3)%nat
        by (eapply (IH (length s3)); [cbn [length]; lia | reflexivity | exact Hs]).
      cbn [length]. lia.
    + destruct (JSON.simple_escape e); [|discriminate].
      cbn [mbind option_bind] in H.
      destruct (JSON.parse_units s2) as [[t' r']|] eqn:Hs; [|discriminate].
      injection H as <- <-.
      assert (length r' < length s2)%nat
        by (eapply (IH (length s2)); [cbn [length]; lia | reflexivity | exact Hs]).
      cbn [length]. lia.
  - destruct (c <? 32); [discriminate|].
    cbn [mbind option_bind] in H.
    destruct (JSON.parse_units s1) as [[t' r']|] eqn:Hs; [|discriminate].
    injection H as <- <-.
    assert (length r' < length s1)%nat
      by (eapply (IH (length s1)); [cbn [length]; lia | reflexivity | exact Hs]).
    cbn [length]. lia.
Qed.

Lemma scan_exponent_length (s : jsstring) (x : Z) (r : jsstring) :
  scan_exponent s = Some (x, r) → (length r ≤ length s)%nat.
Proof.
  unfold scan_exponent.
  destruct s as [|c s'].
  - cbn. discriminate.
  - destruct (c =? chr "-"); [|destruct (c =? chr "+")].
    + destruct (scan_digits s') as [d r'] eqn:Hs.
      apply scan_digits_length in Hs.
      destruct d; intros [= <- <-] || discriminate; cbn [length]; lia.
    + destruct (scan_digits s') as [d r'] eqn:Hs.
      apply scan_digits_length in Hs.
      destruct d; intros [= <- <-] || discriminate; cbn [length]; lia.
    + destruct (scan_digits (c :: s')) as [d r'] eqn:Hs.
      apply scan_digits_length in Hs.
      destruct d; intros [= <- <-] || discriminate; cbn [length] in *; lia.
Qed.

Lemma parse_number_length (s : jsstring) (n : number) (r : jsstring) :
  JSON.parse_number s = Some (n, r) → (length r ≤ length s)%nat.
Proof.
  unfold JSON.parse_number.
  assert (Hsign : ∃ neg s1,
    match s with
    | c :: s' => if c =? chr "-" then (true, s') else (false, s)
    | [] => (false, [])
    end = (neg, s1) ∧ (length s1 ≤ length s)%nat).
  { destruct s as [|c s']; [by eexists _, _|].
    destruct (c =? chr "-"); eexists _, _; split; try reflexivity;
      cbn [length]; lia. }
  destruct Hsign as (neg & s1 & -> & Hs1).
  destruct (JSON.parse_int s1) as [[whole r1]|] eqn:Hint; [|discriminate].
  cbn [mbind option_bind].
  assert (length r1 ≤ length s1)%nat as Hr1.
  { unfold JSON.parse_int in Hint. destruct s1 as [|c s']; [discriminate|].
    destruct (c =? chr "0"); [injection Hint as <- <-; cbn [length]; lia|].
    destruct (is_digit c); [|discriminate].
    assert (Hs : scan_digits (c :: s') = (whole, r1)) by congruence.
    by apply scan_digits_length in Hs. }
  destruct (JSON.parse_frac r1) as [[frac r2]|] eqn:Hfrac; [|discriminate].
  cbn [mbind option_bind].
  assert (length r2 ≤ length r1)%nat as Hr2.
  { unfold JSON.parse_frac in Hfrac. destruct r1 as [|c r']; [by simplify_eq|].
    destruct (c =? chr ".").
    - destruct (scan_digits r') as [d r''] eqn:Hs.
      apply scan_digits_length in Hs.
      destruct d; simplify_eq; cbn [length]; lia.
    - by simplify_eq. }
  destruct (JSON.parse_exp r2) as [[x r3]|] eqn:Hexp; [|discriminate].
  cbn [mbind option_bind].
  assert (length r3 ≤ length r2)%nat as Hr3.
  { unfold JSON.parse_exp in Hexp. destruct r2 as [|c r']; [by simplify_eq|].
    destruct (is_e c).
    - apply scan_exponent_length in Hexp. cbn [length]. lia.
    - by simplify_eq. }
  intros [= <- <-]. lia.
Qed.

Lemma expect_length (word : jsstring) (v v' : value) (s r : jsstring) :
  JSON.expect word v s = Some (v', r) → (length r ≤ length s)%nat.
Proof.
  unfold JSON.expect. case_bool_decide; [|discriminate].
  intros [= <- <-]. rewrite length_drop. lia.
Qed.

Lemma parse_length (fuel : nat) :
  (∀ s v r, JSON.parse_value fuel s = Some (v, r) → (length r ≤ length s)%nat)
  ∧ (∀ s vs r, JSON.parse_elements fuel s = Some (vs, r) →
               (length r ≤ length s)%nat)
  ∧ (∀ s ms r, JSON.parse_members fuel s = Some (ms, r) →
               (length r ≤ length s)%nat).
Proof.
  induction fuel as [|fuel (IHv & IHe & IHm)]; [by repeat split|].
  split; [|split].
  - intros s v r H. cbn [JSON.parse_value] in H.
    destruct (JSON.skip_ws s) as [|c s1] eqn:Hws; [discriminate|].
    apply skip_ws_cons_length in Hws.
    destruct (c =? chr "{").
    { destruct (JSON.skip_ws s1) as [|c2 s2] eqn:Hws2; [discriminate|].
      apply skip_ws_cons_length in Hws2.
      destruct (c2 =? chr "}"); [injection H as <- <-; lia|].
      destruct (JSON.parse_members fuel s1) as [[ms r']|] eqn:Hm; [|discriminate].
      apply IHm in Hm. injection H as <- <-. lia. }
    destruct (c =? chr "[").
    { destruct (JSON.skip_ws s1) as [|c2 s2] eqn:Hws2; [discriminate|].
      apply skip_ws_cons_length in Hws2.
      destruct (c2 =? chr "]"); [injection H as <- <-; lia|].
      destruct (JSON.parse_elements fuel s1) as [[vs r']|] eqn:He; [|discriminate].
      apply IHe in He. injection H as <- <-. lia. }
    destruct (c =? quotation_mark).
    { destruct (JSON.parse_units s1) as [[t r']|] eqn:Hu; [|discriminate].
      apply parse_units_length in Hu. injection H as <- <-. lia. }
    destruct (c =? chr "t"); [apply expect_length in H; cbn [length] in H; lia|].
    destruct (c =? chr "f"); [apply expect_length in H; cbn [length] in H; lia|].
    destruct (c =? chr "n"); [apply expect_length in H; cbn [length] in H; lia|].
    destruct (JSON.parse_number (c :: s1)) as [[n r']|] eqn:Hn; [|discriminate].
    apply parse_number_length in Hn. injection H as <- <-.
    cbn [length] in Hn. lia.
  - intros s vs r H. cbn [JSON.parse_elements] in H.
    destruct (JSON.parse_value fuel s) as [[v r0]|] eqn:Hv; [|discriminate].
    apply IHv in Hv. cbn [mbind option_bind] in H.
    destruct (JSON.skip_ws r0) as [|c r1] eqn:Hws; [discriminate|].
    apply skip_ws_cons_length in Hws.
    destruct (c =? chr ",").
    + destruct (JSON.parse_elements fuel r1) as [[vs' r2]|] eqn:He; [|discriminate].
      apply IHe in He. injection H as <- <-. lia.
    + destruct (c =? chr "]"); [|discriminate]. injection H as <- <-. lia.
  - intros s ms r H. cbn [JSON.parse_members] in H.
    destruct (JSON.skip_ws s) as [|c s1] eqn:Hws; [discriminate|].
    apply skip_ws_cons_length in Hws.
    destruct (c =? quotation_mark); [|discriminate].
    destruct (JSON.parse_units s1) as [[k r0]|] eqn:Hu; [|discriminate].
    apply parse_units_length in Hu. cbn [mbind option_bind] in H.
    destruct (JSON.skip_ws r0) as [|c2 r1] eqn:Hws2; [discriminate|].
    apply skip_ws_cons_length in Hws2.
    destruct (c2 =? chr ":"); [|discriminate].
    destruct (JSON.parse_value fuel r1) as [[v r2]|] eqn:Hv; [|discriminate].
    apply IHv in Hv. cbn [mbind option_bind] in H.
    destruct (JSON.skip_ws r2) as [|c3 r3] eqn:Hws3; [discriminate|].
    apply skip_ws_cons_length in Hws3.
    destruct (c3 =? chr ",").
    + destruct (JSON.parse_members fuel r3) as [[ms' r4]|] eqn:Hm; [|discriminate].
      apply IHm in Hm. injection H as <- <-. lia.
    + destruct (c3 =? chr "}"); [|discriminate]. injection H as <- <-. lia.
Qed.

(** With fuel above twice the length of the text, the result of the
    parser does not depend on the fuel. *)
Lemma parse_fuel (f1 : nat) :
  ∀ f2 : nat,
    (∀ s, (2 * length s + 1 ≤ f1)%nat → (2 * length s + 1 ≤ f2)%nat →
          JSON.parse_value f1 s = JSON.parse_value f2 s)
    ∧ (∀ s, (2 * length s + 2 ≤ f1)%nat → (2 * length s + 2 ≤ f2)%nat →
            JSON.parse_elements f1 s = JSON.parse_elements f2 s)
    ∧ (∀ s, (2 * length s + 2 ≤ f1)%nat → (2 * length s + 2 ≤ f2)%nat →
            JSON.parse_members f1 s = JSON.parse_members f2 s).
Proof.
  induction f1 as [|f1 IH]; intros f2.
  { repeat split; intros; lia. }
  destruct f2 as [|f2]; [repeat split; intros; lia|].
  destruct (IH f2) as (IHv & IHe & IHm). clear IH.
  split; [|split].
  - intros s H1 H2. cbn [JSON.parse_value].
    destruct (JSON.skip_ws s) as [|c s1] eqn:Hws; [reflexivity|].
    apply skip_ws_cons_length in Hws.
    rewrite (IHm s1), (IHe s1) by lia. reflexivity.
  - intros s H1 H2. cbn [JSON.parse_elements].
    rewrite (IHv s) by lia.
    destruct (JSON.parse_value f2 s) as [[v r0]|] eqn:Hv; [|reflexivity].
    apply (proj1 (parse_length f2)) in Hv. cbn [mbind option_bind].
    destruct (JSON.skip_ws r0) as [|c r1] eqn:Hws; [reflexivity|].
    apply skip_ws_cons_length in Hws.
    rewrite (IHe r1) by lia. reflexivity.
  - intros s H1 H2. cbn [JSON.parse_members].
    destruct (JSON.skip_ws s) as [|c s1] eqn:Hws; [reflexivity|].
    apply skip_ws_cons_length in Hws.
    destruct (c =? quotation_mark); [|reflexivity].
    destruct (JSON.parse_units s1) as [[k r0]|] eqn:Hu; [|reflexivity].
    apply parse_units_length in Hu. cbn [mbind option_bind].
    destruct (JSON.skip_ws r0) as [|c2 r1] eqn:Hws2; [reflexivity|].
    apply skip_ws_cons_length in Hws2.
    destruct (c2 =? chr ":"); [|reflexivity].
    rewrite (IHv r1) by lia.
    destruct (JSON.parse_value f2 r1) as [[v r2]|] eqn:Hv; [|reflexivity].
    apply (proj1 (parse_length f2)) in Hv. cbn [mbind option_bind].
    destruct (JSON.skip_ws r2) as [|c3 r3] eqn:Hws3; [reflexivity|].
    apply skip_ws_cons_length in Hws3.
    rewrite (IHm r3) by lia. reflexivity.
Qed.

(** More fuel than [JSON.parse] gives changes nothing. *)
Lemma parse_value_enough (text : jsstring) (fuel : nat) :
  (2 * length text + 2 ≤ fuel)%nat →
  JSON.parse_value fuel text = JSON.parse_value (2 * length text + 2) text.
Proof.
  intros H. apply (proj1 (parse_fuel fuel (2 * length text + 2))); lia.
Qed.

(** * Facts about the page *)

(** ** The next id *)

Lemma mapM_ok {A B} (f : A → result B) (g : A → B) (l : list A) :
  (∀ x, x ∈ l → f x = Ok (g x)) → mapM f l = Ok (map g l).
Proof.
  induction l as [|a l IH]; intros H; [reflexivity|].
  cbn [mapM]. rewrite (H a) by left. cbn.
  rewrite IH by (intros; apply H; by right). reflexivity.
Qed.

Lemma number_ltb_int (a b : Z) : number_ltb (Int a) (Int b) = (a <? b)%Z.
Proof. cbn. unfold pow10. cbn. by rewrite !Z.mul_1_r. Qed.

Lemma number_add_int (a b : Z) :
  number_add (Int a) (Int b) = Int (round_double (a + b)).
Proof.
  unfold number_add, finite_parts, pow10.
  cbn [Nat.max Nat.sub Z.of_nat make_decimal].
  change (10 ^ 0)%Z with 1%Z. by rewrite !Z.mul_1_r.
Qed.

Lemma max_fold_int (m : Z) (zs : list Z) :
  foldl (λ highest n,
           match highest, n with
           | NaN, _ | _, NaN => NaN
           | _, _ => if number_ltb highest n then n else highest
           end) (Int m) (map Int zs)
  = Int (foldl Z.max m zs).
Proof.
  revert m. induction zs as [|z zs IH]; intros m; [reflexivity|].
  cbn [map foldl]. rewrite number_ltb_int.
  destruct (Z.ltb_spec m z).
  - rewrite IH. by rewrite Z.max_r by lia.
  - rewrite IH. by rewrite Z.max_l by lia.
Qed.

Lemma Math_max_ints (z : Z) (zs : list Z) :
  Math.max (map (λ x, Prim (Number (Int x))) (z :: zs))
  = Ok (Int (foldl Z.max z zs)).
Proof.
  unfold Math.max.
  rewrite (mapM_ok _ (λ v, match v with
                           | Prim (Number n) => n
                           | _ => NaN
                           end)).
  2:{ intros x (y & -> & _)%list_elem_of_fmap. reflexivity. }
  rewrite map_map. cbn [mbind result_bind].
  change (map _ (z :: zs)) with (Int z :: map Int zs).
  cbn [foldl]. change (number_ltb NegInf (Int z)) with true. cbv iota.
  by rewrite max_fold_int.
Qed.

Lemma get_prop_id (r : DistributorRecord) :
  get_prop (record_value r) (js "id") = Ok (Prim (Number (Int (rec_id r)))).
Proof. reflexivity. Qed.

Lemma get_prop_module (r : DistributorRecord) :
  get_prop (record_value r) (js "module") = Ok (Prim (Str (rec_module r))).
Proof. reflexivity. Qed.

Lemma foldl_max_ids (m : Z) (rs : list DistributorRecord) :
  foldl Z.max m (map rec_id rs) = foldl (λ m r', Z.max m (rec_id r')) m rs.
Proof. revert m. induction rs as [|r rs IH]; intros m; simpl; auto. Qed.

Lemma mapM_ids (l : list value) (zs : list Z) :
  Forall2 has_id l zs →
  mapM (λ d, get_prop d (js "id")) l = Ok (map (λ z, Prim (Number (Int z))) zs).
Proof.
  induction 1 as [|d z l zs Hd _ IH]; [reflexivity|].
  unfold has_id in Hd. cbn [mapM]. rewrite Hd, IH. reflexivity.
Qed.

(** The next id over objects whose ids are integers. *)
Lemma nextId_ids (l : list value) (zs : list Z) :
  Forall2 has_id l zs →
  nextId l
  = Ok (Int match zs with
            | [] => 1
            | z :: zs' => round_double (foldl Z.max z zs' + 1)
            end).
Proof.
  intros H. unfold nextId. destruct H as [|d z l zs Hd H]; [reflexivity|].
  rewrite bool_decide_eq_true_2 by done.
  rewrite (mapM_ids (d :: l) (z :: zs)) by by constructor.
  cbn [mbind result_bind]. rewrite Math_max_ints. cbn [mbind result_bind].
  by rewrite number_add_int.
Qed.

Lemma has_id_records (rs : list DistributorRecord) :
  Forall2 has_id (map record_value rs) (map rec_id rs).
Proof. induction rs as [|r rs IH]; constructor; [reflexivity | exact IH]. Qed.

Lemma nextId_records (rs : list DistributorRecord) :
  nextId (map record_value rs) = Ok (Int (next_id rs)).
Proof.
  rewrite (nextId_ids _ _ (has_id_records rs)). unfold next_id.
  destruct rs as [|r rs]; [reflexivity|].
  cbn [map max_id]. by rewrite foldl_max_ids.
Qed.

Lemma foldl_max_spec (z : Z) (zs : list Z) :
  foldl Z.max z zs ∈ z :: zs
  ∧ Forall (λ x, x ≤ foldl Z.max z zs)%Z (z :: zs).
Proof.
  revert z. induction zs as [|a zs IH]; intros z; cbn [foldl].
  - split; [left | repeat constructor; lia].
  - destruct (IH (Z.max z a)) as [Hin Hle].
    apply Forall_cons in Hle as [Hm Hle]. split.
    + apply elem_of_cons in Hin as [->|Hin]; [|by do 2 right].
      destruct (Z.max_spec z a) as [[_ ->]|[_ ->]]; [right; left | left].
    + repeat constructor; [lia | lia | exact Hle].
Qed.

Lemma foldl_max_ge (m : Z) (rs : list DistributorRecord) :
  (m ≤ foldl (λ m r', Z.max m (rec_id r')) m rs)%Z
  ∧ Forall (λ r, rec_id r ≤ foldl (λ m r', Z.max m (rec_id r')) m rs)%Z rs.
Proof.
  revert m. induction rs as [|r rs IH]; intros m; cbn [foldl].
  - split; [lia | constructor].
  - destruct (IH (Z.max m (rec_id r))) as [H1 H2].
    split; [lia|]. constructor; [lia | done].
Qed.

Lemma max_id_upper (rs : list DistributorRecord) :
  Forall (λ r, rec_id r < from_option (λ m, m + 1) 1 (max_id rs))%Z rs.
Proof.
  destruct rs as [|r rs]; [constructor|].
  cbn [max_id from_option].
  destruct (foldl_max_ge (rec_id r) rs) as [H1 H2].
  constructor; [lia|].
  eapply Forall_impl; [exact H2|]. intros; simpl in *; lia.
Qed.

Lemma max_id_elem (rs : list DistributorRecord) (m : Z) :
  max_id rs = Some m → m ∈ map rec_id rs.
Proof.
  destruct rs as [|r rs]; [done|]. intros [= <-].
  cbn [map]. generalize (rec_id r) as z.
  induction rs as [|r' rs IH]; intros z; cbn [foldl map].
  - left.
  - destruct (Z.max_spec z (rec_id r')) as [[_ ->]|[_ ->]].
    + right. apply IH.
    + specialize (IH z). rewrite !elem_of_cons in *. tauto.
Qed.

(** While the largest id is below [2^53] the next id is one above it. *)
Lemma next_id_exact (rs : list DistributorRecord) :
  successor_exact rs →
  next_id rs = from_option (λ m, m + 1)%Z 1%Z (max_id rs).
Proof.
  unfold successor_exact, next_id.
  destruct (max_id rs) as [m|]; [|done].
  intros H. specialize (H m eq_refl). cbn [from_option].
  apply round_double_exact. lia.
Qed.

(** ** Validation *)

Lemma validate_valid (st : State) : valid_form st → validate st = ∅.
Proof.
  intros (H1 & H2 & H3 & H4 & H5 & H6). unfold validate.
  apply truthy_true in H1, H2, H3, H4, H6.
  rewrite H1, H2, H3, H5, H4, H6.
  rewrite bool_decide_eq_true_2 by done. reflexivity.
Qed.

Lemma lookup_cond_insert (b : bool) (k k' v : string) (e : gmap string string) :
  (if b then <[k' := v]> e else e) !! k
  = if b && bool_decide (k' = k) then Some v else e !! k.
Proof.
  destruct b; [|reflexivity]. cbn [andb].
  case_bool_decide; by simplify_map_eq.
Qed.

Ltac validate_lookup :=
  unfold validate; cbv zeta;
  rewrite !lookup_cond_insert, lookup_empty;
  repeat (rewrite bool_decide_eq_false_2 by discriminate);
  repeat (rewrite (bool_decide_eq_true_2 (_ = _)) by reflexivity);
  rewrite ?andb_false_r, ?andb_true_r;
  repeat match goal with
         | |- context [truthy ?s] => destruct (truthy s)
         | |- context [bool_decide ?P] => destruct (bool_decide P)
         end;
  reflexivity.

Lemma validate_fullName (st : State) :
  validate st !! "fullName"
  = if truthy (trim (fullName st)) then None else Some "Full name is required.".
Proof. validate_lookup. Qed.

Lemma validate_phone (st : State) :
  validate st !! "phone"
  = if truthy (trim (phone st)) then None else Some "Phone number is required.".
Proof. validate_lookup. Qed.

Lemma validate_username (st : State) :
  validate st !! "username"
  = if truthy (trim (username st)) then None else Some "Username is required.".
Proof. validate_lookup. Qed.

Lemma validate_password (st : State) :
  validate st !! "password"
  = if truthy (password st) then None else Some "Password is required.".
Proof. validate_lookup. Qed.

Lemma validate_confirmPassword (st : State) :
  validate st !! "confirmPassword"
  = if negb (truthy (confirmPassword st)) then Some "Confirm the password."
    else if truthy (password st)
            && negb (bool_decide (password st = confirmPassword st))
         then Some "Passwords do not match."
         else None.
Proof. validate_lookup. Qed.

Lemma validate_selectedModule (st : State) :
  validate st !! "selectedModule"
  = if truthy (selectedModule st) then None
    else Some "Select exactly one access module.".
Proof. validate_lookup. Qed.

Lemma size_lookup_Some (e : gmap string string) (k v : string) :
  e !! k = Some v → size e ≠ 0%nat.
Proof.
  intros H Hsize. apply map_size_empty_iff in Hsize. subst e.
  by rewrite lookup_empty in H.
Qed.

(** ** [handleSave] *)

Lemma handleSave_invalid (w : World) :
  size (validate (page w)) ≠ 0%nat →
  handleSave w = setErrors (validate (page w)) w.
Proof.
  intros H. unfold handleSave. by rewrite bool_decide_eq_true_2.
Qed.

Lemma handleSave_valid (w : World) (id : number) :
  validate (page w) = ∅ →
  nextId (distributors (page w)) = Ok id →
  handleSave w
  = setTimeout_resetForm
      (setSavedMessage "Distributor saved successfully."
         (setDistributors (λ prev, Ok (newDist id (page w) :: prev))
            (setErrors ∅ w))).
Proof.
  intros He Hid. unfold handleSave. rewrite He, Hid.
  rewrite bool_decide_eq_false_2; [reflexivity|].
  intros H. by apply H.
Qed.

Lemma newDist_record (z : Z) (st : State) :
  newDist (Int z) st
  = record_value {| rec_id := z; rec_fullName := trim (fullName st);
                    rec_phone := trim (phone st);
                    rec_username := trim (username st);
                    rec_module := selectedModule st |}.
Proof. reflexivity. Qed.

Lemma handleSave_on_records (w : World) (rs : list DistributorRecord) :
  distributors (page w) = map record_value rs →
  valid_form (page w) →
  handleSave w
  = setTimeout_resetForm
      (setSavedMessage "Distributor saved successfully."
         (setDistributors
            (λ prev, Ok (newDist (Int (next_id rs)) (page w) :: prev))
            (setErrors ∅ w))).
Proof.
  intros Hl Hvalid.
  pose proof (nextId_records rs) as Hid. rewrite <- Hl in Hid.
  exact (handleSave_valid w _ (validate_valid _ Hvalid) Hid).
Qed.

(** ** [handleDelete] *)

Lemma without_id_app (id : primitive) (l1 l2 : list value) :
  without_id id (l1 ++ l2)
  = k1 ← without_id id l1; k2 ← without_id id l2; Ok (k1 ++ k2).
Proof.
  induction l1 as [|d l1 IH]; cbn [app without_id].
  - cbn. by destruct (without_id id l2).
  - destruct (get_prop d (js "id")) as [x|]; [|reflexivity].
    cbn [mbind result_bind]. rewrite IH.
    destruct (without_id id l1) as [k1|]; [|reflexivity].
    cbn [mbind result_bind].
    destruct (without_id id l2) as [k2|]; [|reflexivity].
    cbn [mbind result_bind]. by destruct (strict_equal x id).
Qed.

Lemma without_id_keep (id : primitive) (l : list value) :
  (∀ e, e ∈ l → ∃ y, get_prop e (js "id") = Ok y ∧ strict_equal y id = false) →
  without_id id l = Ok l.
Proof.
  induction l as [|d l IH]; intros H; [reflexivity|].
  cbn [without_id].
  destruct (H d) as (y & -> & Hy); [left|].
  cbn [mbind result_bind]. rewrite IH by (intros; apply H; by right).
  cbn [mbind result_bind]. by rewrite Hy.
Qed.

Lemma without_id_records (id : primitive) (rs : list DistributorRecord) :
  without_id id (map record_value rs)
  = Ok (map record_value
          (filter (λ r, strict_equal (Prim (Number (Int (rec_id r)))) id = false) rs)).
Proof.
  induction rs as [|r rs IH]; [reflexivity|].
  cbn [map without_id]. rewrite get_prop_id. cbn [mbind result_bind].
  rewrite IH. cbn [mbind result_bind]. rewrite filter_cons.
  destruct (strict_equal _ id) eqn:Heq.
  - rewrite decide_False by done. reflexivity.
  - rewrite decide_True by done. reflexivity.
Qed.

Lemma without_id_filter (id : primitive) (l : list value) :
  (∀ e, e ∈ l → ∃ y, get_prop e (js "id") = Ok y) →
  without_id id l = Ok (filter (λ e, id_matches id e = false) l).
Proof.
  induction l as [|d l IH]; intros H; [reflexivity|].
  cbn [without_id]. rewrite filter_cons.
  destruct (H d) as (y & Hy); [left|].
  assert (Hm : id_matches id d = strict_equal y id)
    by (unfold id_matches; by rewrite Hy).
  rewrite Hy. cbn [mbind result_bind].
  rewrite IH by (intros; apply H; by right).
  cbn [mbind result_bind].
  destruct (strict_equal y id).
  - rewrite decide_False by (rewrite Hm; discriminate). reflexivity.
  - rewrite decide_True by done. reflexivity.
Qed.

Lemma filter_id_matches (id : primitive) (l : list value) :
  (∀ e, e ∈ l → id_matches id e = false) →
  filter (λ e, id_matches id e = false) l = l.
Proof.
  induction l as [|d l IH]; intros H; [reflexivity|].
  rewrite filter_cons, decide_True by (apply H; left).
  rewrite IH by (intros; apply H; by right). reflexivity.
Qed.

(** ** The shape of the list *)

Lemma page_runEffects (w : World) : page (runEffects w) = page w.
Proof. unfold runEffects. by destruct (distributorsChanged w). Qed.

Lemma validate_size_zero (st : State) :
  size (validate st) = 0%nat → validate st = ∅ ∧ selectedModule st ≠ [].
Proof.
  intros H%map_size_empty_iff. split; [done|].
  pose proof (validate_selectedModule st) as Hm.
  rewrite H, lookup_empty in Hm.
  destruct (selectedModule st); [discriminate | done].
Qed.

Lemma handleSave_record_list (w : World) :
  record_list (distributors (page w)) →
  record_list (distributors (page (handleSave w))).
Proof.
  intros [rs Hl].
  destruct (decide (size (validate (page w)) = 0%nat)) as [Hz|Hnz].
  - apply validate_size_zero in Hz as [He _].
    pose proof (nextId_records rs) as Hid. rewrite <- Hl in Hid.
    rewrite (handleSave_valid w _ He Hid). cbn. rewrite Hl.
    by eexists ({| rec_id := next_id rs |} :: rs).
  - rewrite (handleSave_invalid w Hnz). by exists rs.
Qed.

Lemma handleDelete_record_list (id : primitive) (confirmed : bool) (w : World) :
  record_list (distributors (page w)) →
  record_list (distributors (page (handleDelete id confirmed w))).
Proof.
  intros [rs Hl]. unfold handleDelete.
  destruct confirmed; cbn [negb]; [|by exists rs].
  unfold setDistributors. rewrite Hl, without_id_records. by eexists.
Qed.

Lemma step_record_list (w : World) (ev : event) :
  record_list (distributors (page w)) →
  record_list (distributors (page (step w ev))).
Proof.
  intros Hrec. unfold step. rewrite page_runEffects.
  destruct ev; cbn [handle]; try exact Hrec.
  - by destruct (ACCESS_MODULES !! i).
  - by apply handleSave_record_list.
  - by apply handleDelete_record_list.
  - by destruct (timers w).
Qed.

Lemma run_record_list (evs : list event) (w : World) :
  record_list (distributors (page w)) →
  record_list (distributors (page (run w evs))).
Proof.
  revert w. induction evs as [|ev evs IH]; intros w Hrec; [done|].
  cbn [run foldl]. apply IH. by apply step_record_list.
Qed.

(** ** The invariant *)

Lemma module_key_tile (i : nat) (m : AccessModule) :
  ACCESS_MODULES !! i = Some m → js (key m) ∈ module_keys.
Proof.
  intros H. unfold module_keys.
  apply (list_elem_of_fmap_2 (λ m, js (key m))).
  by eapply list_elem_of_lookup_2.
Qed.

Lemma submissions_nonneg (evs : list event) : (0 ≤ submissions evs)%Z.
Proof.
  induction evs as [|ev evs IH]; [done|]. destruct ev; cbn [submissions]; lia.
Qed.

Lemma ids_of_list (P : Z → Prop) (l : list value) :
  Forall (λ d, ∃ z, has_id d z ∧ P z) l →
  ∃ zs, Forall2 has_id l zs ∧ Forall P zs.
Proof.
  induction 1 as [|d l (z & Hd & Hz) _ (zs & H2 & HP)].
  - exists []. by split.
  - exists (z :: zs). split; by constructor.
Qed.

Lemma ids_leave_room_less (n n' : Z) (l : list value) :
  (n' ≤ n)%Z → ids_leave_room n l → ids_leave_room n' l.
Proof.
  intros Hn [Hroom Hids]. split; [lia|].
  eapply Forall_impl; [exact Hids|].
  intros d (z & Hd & Hz). exists z. split; [exact Hd | lia].
Qed.

(** With room for one more record, the id of the new record is an integer
    above every id of the list. *)
Lemma nextId_room (n : Z) (l : list value) :
  (0 ≤ n)%Z →
  ids_leave_room (1 + n) l →
  ∃ z, nextId l = Ok (Int z)
       ∧ (- 2 ^ 53 ≤ z ≤ 2 ^ 53 - n)%Z
       ∧ Forall (λ d, ∃ y, has_id d y ∧ (y < z)%Z) l.
Proof.
  intros Hn [Hroom Hids].
  destruct (ids_of_list _ _ Hids) as (zs & H2 & Hzs).
  rewrite (nextId_ids l zs H2).
  destruct H2 as [|d z l zs Hd H2].
  { exists 1%Z. split; [reflexivity|]. split; [lia | constructor]. }
  destruct (foldl_max_spec z zs) as [Hin Hle].
  set (m := foldl Z.max z zs) in *.
  rewrite Forall_forall in Hzs. pose proof (Hzs m Hin) as Hm.
  rewrite round_double_exact by lia.
  exists (m + 1)%Z. split; [reflexivity|]. split; [lia|].
  assert (Hall : Forall2 has_id (d :: l) (z :: zs)) by by constructor.
  clear Hd H2 Hids Hin Hzs Hm. clearbody m. revert Hle.
  induction Hall as [|d' z' l' zs' Hd' _ IH]; intros Hle; [constructor|].
  apply Forall_cons in Hle as [Hz' Hle].
  constructor; [|by apply IH]. exists z'. split; [exact Hd' | lia].
Qed.

Lemma handleSave_room (n : Z) (w : World) :
  (0 ≤ n)%Z →
  page_has_room (1 + n) w → page_has_room n (handleSave w).
Proof.
  intros Hn (((Huniq & Hmod) & Hstr) & Hroom & Hsel).
  destruct (decide (size (validate (page w)) = 0%nat)) as [Hz|Hnz].
  - apply validate_size_zero in Hz as [He Hne].
    destruct Hsel as [Hsel|Hsel]; [done|].
    destruct (nextId_room n _ Hn Hroom) as (z & Hid & Hz & Hbelow).
    rewrite (handleSave_valid w _ He Hid).
    cbn [setTimeout_resetForm setSavedMessage setDistributors setErrors with_page
         page distributors selectedModule].
    split; [split; [split|]|split].
    + unfold unique_ids in *. cbn [map]. apply NoDup_cons. split; [|exact Huniq].
      change (get_prop (newDist (Int z) (page w)) (js "id"))
        with (@Ok value (Prim (Number (Int z)))).
      intros (d & Hd & Hin)%list_elem_of_fmap.
      rewrite Forall_forall in Hbelow.
      destruct (Hbelow d Hin) as (y & Hy & Hlt).
      unfold has_id in Hy. rewrite Hy in Hd.
      assert (z = y) by congruence. lia.
    + constructor; [|exact Hmod].
      exists (selectedModule (page w)). split; [reflexivity|]. by split.
    + constructor; [|exact Hstr]. eexists _, _, _, _. repeat split.
    + destruct Hroom as [Hr Hids]. split; [lia|].
      constructor.
      * exists z. split; [reflexivity | lia].
      * eapply Forall_impl; [exact Hids|].
        intros d (y & Hd & Hy). exists y. split; [exact Hd | lia].
    + by right.
  - rewrite (handleSave_invalid w Hnz).
    split; [by repeat split|]. split; [|exact Hsel].
    apply (ids_leave_room_less (1 + n)); [lia | exact Hroom].
Qed.

Lemma handleDelete_room (n : Z) (id : primitive) (confirmed : bool) (w : World) :
  page_has_room n w → page_has_room n (handleDelete id confirmed w).
Proof.
  intros (((Huniq & Hmod) & Hstr) & [Hroom Hids] & Hsel). unfold handleDelete.
  destruct confirmed; cbn [negb]; [|done].
  unfold setDistributors. rewrite without_id_filter.
  2:{ intros e He. rewrite Forall_forall in Hids.
      destruct (Hids e He) as (z & Hz & _). by eexists. }
  cbn [with_page page distributors selectedModule].
  split; [split; [split|]|split; [split|]]; try done.
  - unfold unique_ids in *. eapply sublist_NoDup; [exact Huniq|].
    apply (fmap_sublist (λ d, get_prop d (js "id"))), sublist_filter.
  - unfold modules_in_set in *. rewrite Forall_forall in *.
    intros d [_ Hd]%list_elem_of_filter. by apply Hmod.
  - rewrite Forall_forall in *.
    intros d [_ Hd]%list_elem_of_filter. by apply Hstr.
  - rewrite Forall_forall in *.
    intros d [_ Hd]%list_elem_of_filter. by apply Hids.
Qed.

Lemma step_room (w : World) (ev : event) (evs : list event) :
  page_has_room (submissions (ev :: evs)) w →
  page_has_room (submissions evs) (step w ev).
Proof.
  intros Hok. unfold step, page_has_room. rewrite page_runEffects.
  pose proof (submissions_nonneg evs) as Hn.
  destruct ev; cbn [handle submissions] in *; try exact Hok.
  - destruct (ACCESS_MODULES !! i) as [m|] eqn:Hm; [|exact Hok].
    destruct Hok as (Hinv & Hroom & _). split; [done|]. split; [done|].
    right. by eapply module_key_tile.
  - by apply handleSave_room.
  - destruct Hok as (Hinv & Hroom & _). split; [done|]. split; [done | by left].
  - by apply handleDelete_room.
  - destruct (timers w); [exact Hok|].
    destruct Hok as (Hinv & Hroom & _). split; [done|]. split; [done | by left].
Qed.

Lemma run_room (evs : list event) (w : World) :
  page_has_room (submissions evs) w →
  store_invariant (distributors (page (run w evs)))
  ∧ Forall string_fields (distributors (page (run w evs))).
Proof.
  revert w. induction evs as [|ev evs IH]; intros w Hok; [apply Hok|].
  cbn [run foldl]. apply IH. by apply step_room.
Qed.

(** ** Reading back what was written *)

Lemma safe_integer_below (z : Z) : safe_integer z → (Z.abs z ≤ 2 ^ 53)%Z.
Proof. unfold safe_integer. lia. Qed.

(** Over a storage entry that holds the JSON text of a list of records,
    the load returns that list. *)
Lemma load_stringified (rs : list DistributorRecord) (st : localStorage.Storage)
    (text : jsstring) :
  Forall (λ r, safe_integer (rec_id r)) rs →
  JSON.stringify (Array (map record_value rs)) = Some text →
  localStorage.getItem st STORAGE_KEY = Ok (Some text) →
  load st = Ok (map record_value rs).
Proof.
  intros Hsafe Htext Hget. unfold load. rewrite Hget.
  assert (Hparse : JSON.parse text = Ok (Array (map record_value rs))).
  { apply parse_stringify_records; [|exact Htext].
    eapply Forall_impl; [exact Hsafe|]. intros r. apply safe_integer_below. }
  destruct text as [|c text].
  { rewrite stringify_records in Htext. discriminate. }
  cbn [mbind result_bind]. rewrite Hparse. reflexivity.
Qed.

(** * The claims *)

(** C1, as stated, fails on large ids: the next id is computed in
    doubles, and the successor of [2^53] is not a double.  Over a list
    whose one record has the id [2^53], a valid submission adds a record
    with that same id: not the largest id plus one, and not above every
    id of the list. *)
Lemma handleSave_repeats_largest_id :
  valid_form (page largest_id)
  ∧ ∃ r0 r : DistributorRecord,
      distributors (page largest_id) = [record_value r0]
      ∧ distributors (page (handleSave largest_id))
        = [record_value r; record_value r0]
      ∧ rec_id r0 = (2 ^ 53)%Z
      ∧ rec_id r = (2 ^ 53)%Z
      ∧ ¬ unique_ids (distributors (page (handleSave largest_id))).
Proof.
  split; [repeat split; vm_compute; discriminate|].
  eexists _, {| rec_id := 2 ^ 53; rec_fullName := js "A B"; rec_phone := js "123";
                rec_username := js "ab"; rec_module := js "reports" |}.
  split; [reflexivity|].
  assert (Hl : distributors (page (handleSave largest_id))
               = [ record_value {| rec_id := 2 ^ 53; rec_fullName := js "A B";
                                   rec_phone := js "123"; rec_username := js "ab";
                                   rec_module := js "reports" |};
                   record_value {| rec_id := 2 ^ 53; rec_fullName := js "C D";
                                   rec_phone := js "456"; rec_username := js "cd";
                                   rec_module := js "outlets" |} ])
    by (vm_compute; reflexivity).
  split; [exact Hl|]. split; [reflexivity|]. split; [reflexivity|].
  rewrite Hl. unfold unique_ids. cbn [map].
  intros H. apply NoDup_cons in H as [H _]. apply H. left.
Qed.

(** C1, amended.  On a list of records whose largest id is an integer
    from [-2^53] to [2^53 - 1] (as in every list of safe integers) and a
    valid form (name, phone and user name not blank, a password entered
    twice, a module selected), [handleSave] adds exactly one record, at
    the head of the list.  Its id is the largest id of the list plus one,
    or 1 when the list is empty, hence above every id of the list; its
    module is the selected module and its name, phone and user name are
    the trimmed inputs. *)
Theorem handleSave_adds_one_record (w : World) (rs : list DistributorRecord) :
  distributors (page w) = map record_value rs →
  valid_form (page w) →
  successor_exact rs →
  ∃ r : DistributorRecord,
    distributors (page (handleSave w)) = record_value r :: distributors (page w)
    ∧ rec_id r = from_option (λ m, m + 1)%Z 1%Z (max_id rs)
    ∧ Forall (λ r0, rec_id r0 < rec_id r)%Z rs
    ∧ rec_module r = selectedModule (page w)
    ∧ rec_fullName r = trim (fullName (page w))
    ∧ rec_phone r = trim (phone (page w))
    ∧ rec_username r = trim (username (page w)).
Proof.
  intros Hl Hvalid Hexact.
  rewrite (handleSave_on_records w rs Hl Hvalid), (next_id_exact rs Hexact).
  eexists {| rec_id := _ |}. split; [reflexivity|].
  cbn [rec_id rec_module rec_fullName rec_phone rec_username].
  split; [reflexivity|]. split; [apply max_id_upper|].
  repeat split.
Qed.

Lemma handleSave_adds_one_record_witness :
  ∃ r : DistributorRecord,
    distributors (page (handleSave two_records_filled))
    = record_value r :: distributors (page two_records)
    ∧ rec_id r = 3%Z
    ∧ Forall (λ r0, rec_id r0 < rec_id r)%Z
        [ {| rec_id := 2; rec_fullName := js "A B"; rec_phone := js "123";
             rec_username := js "ab"; rec_module := js "reports" |};
          {| rec_id := 1; rec_fullName := js "Karthik Rao";
             rec_phone := js "+91 98765 12345";
             rec_username := js "karthik.rao";
             rec_module := js "dailySales" |} ]
    ∧ rec_module r = js "outlets".
Proof.
  destruct (handleSave_adds_one_record two_records_filled
              [ {| rec_id := 2; rec_fullName := js "A B"; rec_phone := js "123";
                   rec_username := js "ab"; rec_module := js "reports" |};
                {| rec_id := 1; rec_fullName := js "Karthik Rao";
                   rec_phone := js "+91 98765 12345";
                   rec_username := js "karthik.rao";
                   rec_module := js "dailySales" |} ])
    as (r & H1 & H2 & H3 & H4 & _).
  - reflexivity.
  - repeat split; vm_compute; discriminate.
  - intros m Hm. vm_compute in Hm. injection Hm as <-. lia.
  - exists r. repeat split; assumption.
Defined.

(** C2.  On a list whose records all have a readable id, [handleDelete]
    with the confirmation keeps, in their order and unchanged, exactly the
    records whose id differs from the one passed.  So when one record of
    the list has that id, the new list is the old one without that
    record.  Without the confirmation the list stays as it is. *)
Theorem handleDelete_removes_that_record (w : World) (id : primitive) :
  (∀ e, e ∈ distributors (page w) → ∃ y, get_prop e (js "id") = Ok y) →
  distributors (page (handleDelete id false w)) = distributors (page w)
  ∧ distributors (page (handleDelete id true w))
    = filter (λ e, id_matches id e = false) (distributors (page w))
  ∧ ∀ (before after : list value) (d : value),
      distributors (page w) = before ++ d :: after →
      id_matches id d = true →
      (∀ e, e ∈ before ++ after → id_matches id e = false) →
      distributors (page (handleDelete id true w)) = before ++ after.
Proof.
  intros Hread. split; [reflexivity|].
  assert (Hdel : distributors (page (handleDelete id true w))
                 = filter (λ e, id_matches id e = false) (distributors (page w))).
  { unfold handleDelete, setDistributors. cbn [negb].
    by rewrite (without_id_filter id _ Hread). }
  split; [exact Hdel|].
  intros before after d Hl Hd Hothers. rewrite Hdel, Hl.
  rewrite filter_app, filter_cons, decide_False by (rewrite Hd; discriminate).
  rewrite <- filter_app. apply filter_id_matches. exact Hothers.
Qed.

Lemma handleDelete_removes_that_record_witness :
  distributors (page (handleDelete (Number (Int 1)) true two_records))
  = [ record_value {| rec_id := 2; rec_fullName := js "A B";
                      rec_phone := js "123"; rec_username := js "ab";
                      rec_module := js "reports" |} ]
  ∧ distributors (page (handleDelete (Number (Int 1)) false two_records))
    = distributors (page two_records).
Proof.
  destruct (handleDelete_removes_that_record two_records (Number (Int 1)))
    as (H1 & H2 & _).
  - intros e He. unfold two_records, SAMPLE in He.
    cbn [page distributors] in He. rewrite !elem_of_cons in He.
    destruct He as [-> | [-> | He]]; [by eexists | by eexists |].
    by apply elem_of_nil in He.
  - split; [rewrite H2; reflexivity | exact H1].
Defined.

(** C3, as stated, fails: the initial load keeps whatever array the
    storage entry holds.  Over [foreign_storage] the page mounts with a
    list in which two records share an id and one module is outside the
    fixed set. *)
Lemma initial_load_may_break_invariant :
  ∃ w, mount foreign_storage = Ok w
       ∧ ¬ unique_ids (distributors (page w))
       ∧ ¬ modules_in_set (distributors (page w)).
Proof.
  eexists. split; [vm_compute; reflexivity|]. split.
  - unfold unique_ids. cbn [page distributors map].
    intros H. apply NoDup_cons in H as [H _]. apply H. left.
  - unfold modules_in_set. cbn [page distributors].
    intros H. apply Forall_cons in H as [(m & Hm & _ & Hin) _].
    assert (Hno : bool_decide (js "admin" ∈ module_keys) = false)
      by (vm_compute; reflexivity).
    apply bool_decide_eq_false in Hno. apply Hno.
    vm_compute in Hm. injection Hm as <-. exact Hin.
Qed.

(** The ids of a well-formed list may still collide when they have no
    room to grow: over [limit_storage], whose one id is [2^53 - 1], the
    page mounts with a list that satisfies the invariant, the first
    submission gives the id [2^53], and the second gives [2^53] again. *)
Lemma ids_collide_without_room :
  ∃ w0, mount limit_storage = Ok w0
        ∧ store_invariant (distributors (page w0))
        ∧ map (λ d, get_prop d (js "id"))
            (distributors (page (run w0 (scenario_events ++ [Submit]))))
          = [ Ok (Prim (Number (Int (2 ^ 53))));
              Ok (Prim (Number (Int (2 ^ 53))));
              Ok (Prim (Number (Int (2 ^ 53 - 1)))) ]
        ∧ ¬ unique_ids (distributors (page (run w0 (scenario_events ++ [Submit])))).
Proof.
  eexists. split; [vm_compute; reflexivity|].
  match goal with
  | |- _ ∧ ?ids = ?l ∧ _ => assert (Hids : ids = l) by (vm_compute; reflexivity)
  end.
  split; [|split; [exact Hids|]].
  - split.
    + unfold unique_ids. cbn [page distributors map]. apply NoDup_singleton.
    + cbn [page distributors]. repeat constructor.
      exists (js "outlets"). split; [reflexivity|]. split; [discriminate|].
      unfold module_keys, ACCESS_MODULES. cbn [map]. do 3 right. left.
  - unfold unique_ids. rewrite Hids.
    intros H. apply NoDup_cons in H as [H _]. apply H. left.
Qed.

(** C3, amended.  If the list that the initial load returns is made of
    objects whose name, phone, user name and module are strings, with
    unique ids and modules of the fixed set (as the seed list is), and
    its ids are integers with room for the submissions to come (each id
    from [-2^53] up, and each id plus the number of submissions, like
    that number alone, at most [2^53]), then the page mounts, and after
    the events (typing, selecting a tile, submitting, cancelling,
    deleting, a timer) every id is unique within the list, every module
    is a non-empty one of the fixed set, and the list is still made of
    such objects. *)
Theorem store_invariant_reachable
    (st : localStorage.Storage) (loaded : list value) (evs : list event) :
  load st = Ok loaded →
  Forall string_fields loaded →
  store_invariant loaded →
  ids_leave_room (submissions evs) loaded →
  ∃ w0, mount st = Ok w0
        ∧ store_invariant (distributors (page (run w0 evs)))
        ∧ Forall string_fields (distributors (page (run w0 evs))).
Proof.
  intros Hload Hstr Hinv Hroom. unfold mount. rewrite Hload.
  cbn [mbind result_bind].
  eexists. split; [reflexivity|]. apply run_room.
  unfold page_has_room. rewrite page_runEffects.
  cbn [page distributors selectedModule].
  split; [done|]. split; [done | by left].
Qed.

Lemma store_invariant_reachable_witness :
  ∃ w0, mount (localStorage.Slots ∅ 5000000) = Ok w0
        ∧ store_invariant (distributors (page (run w0 busy_events)))
        ∧ Forall string_fields (distributors (page (run w0 busy_events))).
Proof.
  apply (store_invariant_reachable (localStorage.Slots ∅ 5000000) SAMPLE
           busy_events).
  - reflexivity.
  - repeat constructor. eexists _, _, _, _. repeat split.
  - split.
    + unfold unique_ids, SAMPLE. cbn [map]. apply NoDup_singleton.
    + repeat constructor. exists (js "dailySales").
      split; [reflexivity|]. split; [discriminate|]. cbn. left.
  - split; [vm_compute; discriminate|].
    repeat constructor. exists 1%Z. split; [reflexivity|].
    vm_compute. split; discriminate.
Defined.

(** C4.  When a required field (full name, phone, user name, password,
    confirmation) is empty or no module is selected, [validate] returns a
    mapping that is not empty, and [handleSave] stores that mapping as
    the errors and leaves the list of distributors as it was. *)
Theorem handleSave_rejects_empty_field (w : World) :
  fullName (page w) = [] ∨ phone (page w) = [] ∨ username (page w) = []
  ∨ password (page w) = [] ∨ confirmPassword (page w) = []
  ∨ selectedModule (page w) = [] →
  size (validate (page w)) ≠ 0%nat
  ∧ errors (page (handleSave w)) = validate (page w)
  ∧ distributors (page (handleSave w)) = distributors (page w).
Proof.
  intros H.
  assert (Hsize : size (validate (page w)) ≠ 0%nat).
  { destruct H as [H|[H|[H|[H|[H|H]]]]].
    - eapply size_lookup_Some. rewrite validate_fullName, H. reflexivity.
    - eapply size_lookup_Some. rewrite validate_phone, H. reflexivity.
    - eapply size_lookup_Some. rewrite validate_username, H. reflexivity.
    - eapply size_lookup_Some. rewrite validate_password, H. reflexivity.
    - eapply size_lookup_Some. rewrite validate_confirmPassword, H. reflexivity.
    - eapply size_lookup_Some. rewrite validate_selectedModule, H. reflexivity. }
  split; [exact Hsize|]. rewrite (handleSave_invalid w Hsize). split; reflexivity.
Qed.

Lemma handleSave_rejects_empty_field_witness :
  size (validate (page (setPhone [] scenario))) ≠ 0%nat
  ∧ errors (page (handleSave (setPhone [] scenario)))
    = validate (page (setPhone [] scenario))
  ∧ distributors (page (handleSave (setPhone [] scenario))) = [].
Proof.
  apply (handleSave_rejects_empty_field (setPhone [] scenario)).
  right. left. reflexivity.
Defined.

(** C5, as stated, fails: with an empty password and a confirmation that
    is not empty the two differ, and the mapping has a [password] error
    but no [confirmPassword] error. *)
Lemma empty_password_has_no_confirm_error :
  password (page (setPassword [] scenario))
    ≠ confirmPassword (page (setPassword [] scenario))
  ∧ validate (page (setPassword [] scenario)) !! "confirmPassword" = None
  ∧ errors (page (handleSave (setPassword [] scenario))) !! "confirmPassword"
    = None.
Proof.
  split; [discriminate|]. split.
  - rewrite validate_confirmPassword. reflexivity.
  - rewrite handleSave_invalid.
    + cbn [setErrors with_page page errors].
      rewrite validate_confirmPassword. reflexivity.
    + eapply size_lookup_Some. rewrite validate_password. reflexivity.
Qed.

(** C5, amended.  When the password and the confirmation differ,
    [handleSave] stores a mapping of errors that is not empty and leaves
    the list of distributors as it was.  The mapping has a
    [confirmPassword] error whenever the password is not empty; when the
    password is empty it has a [password] error. *)
Theorem handleSave_rejects_mismatch (w : World) :
  password (page w) ≠ confirmPassword (page w) →
  size (validate (page w)) ≠ 0%nat
  ∧ errors (page (handleSave w)) = validate (page w)
  ∧ distributors (page (handleSave w)) = distributors (page w)
  ∧ (password (page w) ≠ [] →
     is_Some (validate (page w) !! "confirmPassword"))
  ∧ (password (page w) = [] →
     validate (page w) !! "password" = Some "Password is required.").
Proof.
  intros Hne.
  assert (Hconfirm : password (page w) ≠ [] →
                     is_Some (validate (page w) !! "confirmPassword")).
  { intros Hpw. rewrite validate_confirmPassword.
    apply truthy_true in Hpw. rewrite Hpw.
    rewrite bool_decide_eq_false_2 by done.
    destruct (truthy (confirmPassword (page w))); cbn; eauto. }
  assert (Hpassword : password (page w) = [] →
                      validate (page w) !! "password"
                      = Some "Password is required.").
  { intros Hpw. rewrite validate_password, Hpw. reflexivity. }
  assert (Hsize : size (validate (page w)) ≠ 0%nat).
  { destruct (password (page w)) as [|c pw] eqn:Hpw.
    - eapply size_lookup_Some. by apply Hpassword.
    - destruct Hconfirm as [v Hv]; [done|]. by eapply size_lookup_Some. }
  split; [exact Hsize|]. rewrite (handleSave_invalid w Hsize).
  repeat split; assumption.
Qed.

Lemma handleSave_rejects_mismatch_witness :
  size (validate (page (setConfirmPassword (js "y") scenario))) ≠ 0%nat
  ∧ distributors (page (handleSave (setConfirmPassword (js "y") scenario))) = []
  ∧ is_Some (validate (page (setConfirmPassword (js "y") scenario))
               !! "confirmPassword").
Proof.
  destruct (handleSave_rejects_mismatch (setConfirmPassword (js "y") scenario))
    as (H1 & _ & H3 & H4 & _).
  - vm_compute. discriminate.
  - split; [exact H1|]. split; [exact H3|]. apply H4. vm_compute. discriminate.
Defined.

(** C6.  For a list of records with integer ids, what the persistence
    effect writes is read back by the load as the same list, provided the
    storage area takes the write. *)
Theorem persist_then_load (rs : list DistributorRecord) (st : localStorage.Storage) :
  Forall (λ r, safe_integer (rec_id r)) rs →
  accepts_write st (map record_value rs) →
  load (persist (map record_value rs) st) = Ok (map record_value rs).
Proof.
  intros Hsafe [st' Hwrite]. unfold persist. rewrite Hwrite.
  destruct (JSON.stringify (Array (map record_value rs))) as [text|] eqn:Htext;
    [|by rewrite stringify_records in Htext].
  cbn [from_option] in Hwrite. unfold id in Hwrite.
  apply (load_stringified rs st' text Hsafe Htext).
  destruct st as [|items quota]; [discriminate|].
  cbn [localStorage.setItem] in Hwrite.
  destruct (_ <=? quota); [|discriminate].
  assert (st' = localStorage.Slots (<[STORAGE_KEY := text]> items) quota)
    as -> by congruence.
  cbn [localStorage.getItem]. by rewrite lookup_insert_eq.
Qed.

Lemma persist_then_load_witness :
  load (persist (distributors (page two_records)) (localStorage.Slots ∅ 5000000))
  = Ok (distributors (page two_records)).
Proof.
  apply (persist_then_load
           [ {| rec_id := 2; rec_fullName := js "A B"; rec_phone := js "123";
                rec_username := js "ab"; rec_module := js "reports" |};
             {| rec_id := 1; rec_fullName := js "Karthik Rao";
                rec_phone := js "+91 98765 12345";
                rec_username := js "karthik.rao";
                rec_module := js "dailySales" |} ]
           (localStorage.Slots ∅ 5000000)).
  - repeat constructor; vm_compute; discriminate.
  - eexists. vm_compute. reflexivity.
Defined.

(** C7.  The object that [handleSave] builds has exactly the keys [id],
    [fullName], [phone], [username] and [module].  The password and its
    confirmation decide whether a submission is accepted and nothing
    else: whatever is typed in the two fields, the list and the storage
    area after the submission are either what they are without a save,
    or one fixed list and one fixed storage area.  And from a list of
    records, every object of the list keeps exactly those five keys
    after any sequence of events. *)
Theorem passwords_do_not_flow (w : World) :
  (∀ id, own_keys (newDist id (page w)) = record_keys)
  ∧ (∃ (saved : list value) (written : localStorage.Storage),
       ∀ pw cpw : jsstring,
         let w' := step (setConfirmPassword cpw (setPassword pw w)) Submit in
         (distributors (page w') = distributors (page w)
          ∧ storage w' = storage (runEffects w))
         ∨ (distributors (page w') = saved ∧ storage w' = written))
  ∧ (page_ok w →
     ∀ evs d, d ∈ distributors (page (run w evs)) → own_keys d = record_keys).
Proof.
  split; [reflexivity|]. split.
  - destruct (nextId (distributors (page w))) as [id|e] eqn:Hid.
    + exists (newDist id (page w) :: distributors (page w)),
             (persist (newDist id (page w) :: distributors (page w)) (storage w)).
      intros pw cpw w'. subst w'.
      set (w1 := setConfirmPassword cpw (setPassword pw w)).
      destruct (decide (size (validate (page w1)) = 0%nat)) as [Hz|Hnz].
      * right. apply validate_size_zero in Hz as [He _].
        unfold step. cbn [handle].
        rewrite (handleSave_valid w1 id He Hid). split; reflexivity.
      * left. unfold step. cbn [handle].
        rewrite (handleSave_invalid w1 Hnz).
        unfold runEffects. cbn. by destruct (distributorsChanged w).
    + exists [], localStorage.Blocked.
      intros pw cpw w'. subst w'. left.
      unfold step. cbn [handle]. unfold handleSave.
      change (distributors (page (setConfirmPassword cpw (setPassword pw w))))
        with (distributors (page w)).
      rewrite Hid.
      unfold runEffects. cbn.
      destruct (bool_decide _); cbn; by destruct (distributorsChanged w).
  - intros [(rs & Hl & _) _] evs d Hd.
    destruct (run_record_list evs w) as [rs' Hl']; [by exists rs|].
    rewrite Hl' in Hd. apply list_elem_of_fmap in Hd as (r & -> & _).
    reflexivity.
Qed.

(** C8.  The initial load always returns a list, whatever the storage
    area holds: it returns the seed list when reading the entry throws,
    when there is no entry, and when the entry is not a JSON text. *)
Theorem load_never_raises (st : localStorage.Storage) :
  (∃ l, load st = Ok l)
  ∧ (∀ e, localStorage.getItem st STORAGE_KEY = Throw e → load st = Ok SAMPLE)
  ∧ (localStorage.getItem st STORAGE_KEY = Ok None → load st = Ok SAMPLE)
  ∧ (∀ text e, localStorage.getItem st STORAGE_KEY = Ok (Some text) →
               JSON.parse text = Throw e → load st = Ok SAMPLE).
Proof.
  unfold load.
  destruct (localStorage.getItem st STORAGE_KEY) as [[[|c text]|]|e0];
    cbn [mbind result_bind try_catch].
  - repeat split; eauto; try discriminate.
  - destruct (JSON.parse (c :: text)) as [[p|elems|props]|e1] eqn:Hp;
      cbn [mbind result_bind try_catch];
      (split; [eauto|]); (split; [discriminate|]); (split; [discriminate|]);
      intros text' e' [= <-]; congruence.
  - repeat split; eauto; discriminate.
  - repeat split; eauto; discriminate.
Qed.

Lemma load_never_raises_witness :
  load broken_storage = Ok SAMPLE.
Proof.
  apply (proj2 (proj2 (proj2 (load_never_raises broken_storage)))
           (js "[{") SyntaxError); vm_compute; reflexivity.
Defined.

(** C10.  When the entry is a JSON text whose value is not an array, the
    initial load returns the seed list. *)
Theorem load_non_array (st : localStorage.Storage) (text : jsstring) (v : value) :
  localStorage.getItem st STORAGE_KEY = Ok (Some text) →
  JSON.parse text = Ok v →
  (∀ elems, v ≠ Array elems) →
  load st = Ok SAMPLE.
Proof.
  intros Hget Hparse Hv. unfold load. rewrite Hget.
  destruct text as [|c text]; [discriminate Hparse|].
  cbn [mbind result_bind]. rewrite Hparse. cbn [mbind result_bind].
  destruct v as [p|elems|props]; try reflexivity.
  by destruct (Hv elems).
Qed.

Lemma load_non_array_witness : load object_storage = Ok SAMPLE.
Proof.
  apply (load_non_array object_storage (json_text "{'id':1}")
           (Object [(js "id", Prim (Number (Int 1)))])).
  - vm_compute. reflexivity.
  - vm_compute. reflexivity.
  - discriminate.
Defined.

(** C9.  The password fields are validated as typed, the other text
    fields after trimming.  On a list of records, with name, phone, user
    name and module valid, a password made of white space only (at least
    one character) and the same text as confirmation pass: [validate]
    returns the empty mapping and [handleSave] adds a record.  The same
    text typed as the full name, the phone or the user name is refused. *)
Theorem whitespace_password_accepted (w : World) (rs : list DistributorRecord) :
  distributors (page w) = map record_value rs →
  trim (fullName (page w)) ≠ [] →
  trim (phone (page w)) ≠ [] →
  trim (username (page w)) ≠ [] →
  selectedModule (page w) ≠ [] →
  password (page w) ≠ [] →
  Forall (λ c, is_whitespace c = true) (password (page w)) →
  confirmPassword (page w) = password (page w) →
  validate (page w) = ∅
  ∧ (∃ r, distributors (page (handleSave w))
          = record_value r :: distributors (page w))
  ∧ validate (page (setFullName (password (page w)) w)) !! "fullName"
    = Some "Full name is required."
  ∧ validate (page (setPhone (password (page w)) w)) !! "phone"
    = Some "Phone number is required."
  ∧ validate (page (setUsername (password (page w)) w)) !! "username"
    = Some "Username is required.".
Proof.
  intros Hl H1 H2 H3 H4 H5 Hws H6.
  assert (Hvalid : valid_form (page w)) by (repeat split; assumption).
  split; [by apply validate_valid|]. split.
  - rewrite (handleSave_on_records w rs Hl Hvalid).
    eexists {| rec_id := _ |}. reflexivity.
  - rewrite validate_fullName, validate_phone, validate_username.
    cbn [setFullName setPhone setUsername with_page page fullName phone username].
    rewrite (trim_whitespace _ Hws). repeat split.
Qed.

Lemma whitespace_password_accepted_witness :
  validate (page blank_password) = ∅
  ∧ ∃ r, distributors (page (handleSave blank_password)) = [record_value r].
Proof.
  destruct (whitespace_password_accepted blank_password []) as (H1 & H2 & _).
  - reflexivity.
  - vm_compute. discriminate.
  - vm_compute. discriminate.
  - vm_compute. discriminate.
  - vm_compute. discriminate.
  - vm_compute. discriminate.
  - repeat constructor.
  - reflexivity.
  - split; [exact H1 | exact H2].
Defined.

(** * Further properties of the page *)

(** ** Helpers *)

Lemma validate_empty_valid (st : State) : validate st = ∅ → valid_form st.
Proof.
  intros He.
  pose proof (validate_fullName st) as H1.
  pose proof (validate_phone st) as H2.
  pose proof (validate_username st) as H3.
  pose proof (validate_password st) as H4.
  pose proof (validate_confirmPassword st) as H5.
  pose proof (validate_selectedModule st) as H6.
  rewrite He, lookup_empty in H1, H2, H3, H4, H5, H6.
  destruct (truthy (trim (fullName st))) eqn:T1; [|discriminate].
  destruct (truthy (trim (phone st))) eqn:T2; [|discriminate].
  destruct (truthy (trim (username st))) eqn:T3; [|discriminate].
  destruct (truthy (password st)) eqn:T4; [|discriminate].
  destruct (truthy (confirmPassword st)) eqn:T5; [|discriminate].
  destruct (truthy (selectedModule st)) eqn:T6; [|discriminate].
  cbn in H5. case_bool_decide as Heq; [|discriminate].
  apply truthy_true in T1, T2, T3, T4, T6.
  repeat split; done.
Qed.

Lemma validate_not_valid (st : State) :
  ¬ valid_form st → size (validate st) ≠ 0%nat.
Proof.
  intros Hnv Hsize. apply Hnv, validate_empty_valid.
  by apply map_size_empty_iff.
Qed.

Lemma metrics_ok (rs : list DistributorRecord) :
  metrics (map record_value rs)
  = Ok (length rs,
        length (filter (λ r, rec_module r = js "dailySales") rs)).
Proof.
  unfold metrics.
  rewrite (mapM_ok _ (λ d, match get_prop d (js "module") with
                           | Ok m => strict_equal m (Str (js "dailySales"))
                           | Throw _ => false
                           end)).
  2:{ intros x (r & -> & _)%list_elem_of_fmap. reflexivity. }
  cbn [mbind result_bind]. rewrite length_map, map_map. do 2 f_equal.
  induction rs as [|r rs IH]; [reflexivity|].
  cbn [map]. rewrite !filter_cons, get_prop_module.
  cbn [strict_equal].
  destruct (decide (rec_module r = js "dailySales")) as [Hm|Hm].
  - rewrite bool_decide_eq_true_2 by (by rewrite Hm).
    rewrite decide_True by done. cbn [length]. by rewrite IH.
  - rewrite bool_decide_eq_false_2 by congruence.
    rewrite decide_False by done. exact IH.
Qed.

(** ** Validation and submission *)

(** X1.  [validate] returns the empty mapping exactly for a valid form:
    name, phone and user name not blank after trimming, a password, the
    same text as confirmation, and a module. *)
Theorem validate_empty_iff_valid (st : State) :
  validate st = ∅ ↔ valid_form st.
Proof. split; [apply validate_empty_valid | apply validate_valid]. Qed.

(** X2.  On a form that is not valid, whatever the list holds,
    [handleSave] only stores the errors: the list, the fields, the saved
    message, the timers and the storage area stay as they were. *)
Theorem handleSave_invalid_only_errors (w : World) :
  ¬ valid_form (page w) →
  handleSave w = setErrors (validate (page w)) w
  ∧ size (validate (page w)) ≠ 0%nat.
Proof.
  intros Hnv. pose proof (validate_not_valid _ Hnv) as Hsize.
  split; [by apply handleSave_invalid | exact Hsize].
Qed.

Lemma handleSave_invalid_only_errors_witness :
  handleSave (setFullName (js "   ") scenario)
  = setErrors (validate (page (setFullName (js "   ") scenario)))
      (setFullName (js "   ") scenario)
  ∧ size (validate (page (setFullName (js "   ") scenario))) ≠ 0%nat.
Proof.
  apply (handleSave_invalid_only_errors (setFullName (js "   ") scenario)).
  intros (H & _). apply H. reflexivity.
Defined.

(** X3.  Cancelling clears the form, so a submission right after it is
    refused with all six errors, and the list, the storage area and the
    timers are as before the two clicks. *)
Theorem cancel_then_submit (w : World) :
  let w' := handleSave (resetForm w) in
  dom (errors (page w'))
  = {["fullName"; "phone"; "username"; "password"; "confirmPassword";
      "selectedModule"]}
  ∧ distributors (page w') = distributors (page w)
  ∧ storage w' = storage w
  ∧ timers w' = timers w
  ∧ fullName (page w') = [] ∧ phone (page w') = [] ∧ username (page w') = []
  ∧ password (page w') = [] ∧ confirmPassword (page w') = []
  ∧ selectedModule (page w') = [].
Proof.
  intros w'. subst w'.
  assert (Hv : validate (page (resetForm w))
               = <["selectedModule" := "Select exactly one access module."]>
                   (<["confirmPassword" := "Confirm the password."]>
                      (<["password" := "Password is required."]>
                         (<["username" := "Username is required."]>
                            (<["phone" := "Phone number is required."]>
                               (<["fullName" := "Full name is required."]> ∅))))))
    by reflexivity.
  rewrite handleSave_invalid.
  2:{ eapply size_lookup_Some. rewrite validate_fullName. reflexivity. }
  split; [|repeat split].
  cbn [setErrors with_page page errors]. rewrite Hv.
  rewrite !dom_insert_L, dom_empty_L. set_solver.
Qed.

(** ** The metrics *)

(** X4.  On a list of records the metrics are the length of the list and
    the number of records whose module is [dailySales], which is at most
    the length. *)
Theorem metrics_of_records (rs : list DistributorRecord) :
  ∃ total daily,
    metrics (map record_value rs) = Ok (total, daily)
    ∧ total = length rs
    ∧ daily = length (filter (λ r, rec_module r = js "dailySales") rs)
    ∧ (daily ≤ total)%nat.
Proof.
  eexists _, _. split; [apply metrics_ok|]. split; [done|]. split; [done|].
  apply length_filter.
Qed.

(** X5.  A successful submission raises the total by one, and the count
    of [dailySales] by one exactly when that is the selected module. *)
Theorem metrics_after_save (w : World) (rs : list DistributorRecord)
    (total daily : nat) :
  distributors (page w) = map record_value rs →
  valid_form (page w) →
  metrics (distributors (page w)) = Ok (total, daily) →
  metrics (distributors (page (handleSave w)))
  = Ok (S total,
        if decide (selectedModule (page w) = js "dailySales")
        then S daily else daily).
Proof.
  intros Hl Hvalid. rewrite (handleSave_on_records w rs Hl Hvalid).
  cbn [setTimeout_resetForm setSavedMessage setDistributors setErrors with_page
       page distributors].
  rewrite Hl, metrics_ok. intros [= <- <-].
  rewrite newDist_record.
  change (?a :: map record_value rs) with (map record_value
    ({| rec_id := next_id rs;
        rec_fullName := trim (fullName (page w));
        rec_phone := trim (phone (page w));
        rec_username := trim (username (page w));
        rec_module := selectedModule (page w) |} :: rs)).
  rewrite metrics_ok. cbn [length]. rewrite filter_cons. cbn [rec_module].
  by destruct (decide (selectedModule (page w) = js "dailySales")).
Qed.

Lemma metrics_after_save_witness :
  metrics (distributors (page (handleSave scenario))) = Ok (1%nat, 0%nat).
Proof.
  apply (metrics_after_save scenario [] 0 0).
  - reflexivity.
  - repeat split; vm_compute; discriminate.
  - reflexivity.
Defined.

(** ** After a submission *)

Lemma trimStart_head (s : jsstring) (c : N) :
  head (trimStart s) = Some c → is_whitespace c = false.
Proof.
  induction s as [|a s IH]; [discriminate|]. cbn [trimStart].
  destruct (is_whitespace a) eqn:Ha; [exact IH|].
  cbn. congruence.
Qed.

Lemma trimEnd_head (s : jsstring) :
  trimEnd s ≠ [] → head (trimEnd s) = head s.
Proof.
  destruct s as [|a s]; [done|]. cbn [trimEnd].
  destruct (trimEnd s); [|done].
  by destruct (is_whitespace a).
Qed.

Lemma trimEnd_last (s : jsstring) (c : N) :
  last (trimEnd s) = Some c → is_whitespace c = false.
Proof.
  induction s as [|a s IH]; [discriminate|]. cbn [trimEnd].
  destruct (trimEnd s) as [|b t] eqn:Ht.
  - destruct (is_whitespace a) eqn:Ha; [discriminate|]. cbn. congruence.
  - intros H. apply IH. exact H.
Qed.

Lemma trim_trimmed (s : jsstring) : trim s ≠ [] → trimmed_text (trim s).
Proof.
  unfold trim, trimmed_text. intros Hne.
  pose proof (trimEnd_head _ Hne) as Hh.
  destruct (head (trimEnd (trimStart s))) as [a|] eqn:Ha.
  2:{ by destruct (trimEnd (trimStart s)). }
  destruct (last (trimEnd (trimStart s))) as [b|] eqn:Hb.
  2:{ apply last_None in Hb. done. }
  split.
  - apply (trimStart_head s). by rewrite <- Hh.
  - by apply (trimEnd_last (trimStart s)).
Qed.

Lemma foldl_max_head (m : Z) (rs : list DistributorRecord) :
  Forall (λ r, rec_id r < m)%Z rs →
  foldl (λ m r', Z.max m (rec_id r')) m rs = m.
Proof.
  induction 1 as [|r rs Hr _ IH]; [reflexivity|].
  cbn [foldl]. rewrite Z.max_l by lia. exact IH.
Qed.

Lemma strict_equal_int (a b : Z) :
  strict_equal (Prim (Number (Int a))) (Number (Int b)) = bool_decide (a = b).
Proof.
  cbn [strict_equal]. apply bool_decide_ext. split; congruence.
Qed.

Lemma filter_other_ids (n : Z) (rs : list DistributorRecord) :
  Forall (λ r, rec_id r < n)%Z rs →
  filter (λ r, strict_equal (Prim (Number (Int (rec_id r)))) (Number (Int n)) = false) rs
  = rs.
Proof.
  induction 1 as [|r rs Hr _ IH]; [reflexivity|].
  rewrite filter_cons, decide_True, IH; [reflexivity|].
  rewrite strict_equal_int. apply bool_decide_eq_false. lia.
Qed.

(** The record that [handleSave] adds to the records [rs]. *)
Lemma handleSave_list (w : World) (rs : list DistributorRecord) :
  distributors (page w) = map record_value rs →
  valid_form (page w) →
  distributors (page (handleSave w))
  = map record_value
      ({| rec_id := next_id rs;
          rec_fullName := trim (fullName (page w));
          rec_phone := trim (phone (page w));
          rec_username := trim (username (page w));
          rec_module := selectedModule (page w) |} :: rs)
  ∧ valid_form (page (handleSave w))
  ∧ fullName (page (handleSave w)) = fullName (page w)
  ∧ phone (page (handleSave w)) = phone (page w)
  ∧ username (page (handleSave w)) = username (page w)
  ∧ selectedModule (page (handleSave w)) = selectedModule (page w)
  ∧ timers (handleSave w) = S (timers w).
Proof.
  intros Hl Hvalid. rewrite (handleSave_on_records w rs Hl Hvalid).
  cbn [setTimeout_resetForm setSavedMessage setDistributors setErrors with_page
       page distributors timers fullName phone username selectedModule].
  split; [by rewrite Hl|]. split; [exact Hvalid|]. repeat split.
Qed.

(** X6.  After a successful submission the message is shown, the errors
    are cleared, the fields still hold what was typed and one timer is
    pending.  When the timer fires, the fields and the message are
    cleared, the timer is gone, and the list and the storage area keep
    what the submission gave them. *)
Theorem submit_then_timer (w : World) (rs : list DistributorRecord) :
  distributors (page w) = map record_value rs →
  valid_form (page w) →
  let w1 := step w Submit in
  let w2 := step w1 TimerFires in
  (savedMessage (page w1) = "Distributor saved successfully."
   ∧ errors (page w1) = ∅
   ∧ timers w1 = S (timers w)
   ∧ fullName (page w1) = fullName (page w)
   ∧ phone (page w1) = phone (page w)
   ∧ username (page w1) = username (page w)
   ∧ password (page w1) = password (page w)
   ∧ confirmPassword (page w1) = confirmPassword (page w)
   ∧ selectedModule (page w1) = selectedModule (page w))
  ∧ (savedMessage (page w2) = ""
     ∧ errors (page w2) = ∅
     ∧ timers w2 = timers w
     ∧ fullName (page w2) = [] ∧ phone (page w2) = [] ∧ username (page w2) = []
     ∧ password (page w2) = [] ∧ confirmPassword (page w2) = []
     ∧ selectedModule (page w2) = []
     ∧ distributors (page w2) = distributors (page w1)
     ∧ storage w2 = storage w1).
Proof.
  intros Hl Hvalid w1 w2. subst w2 w1. unfold step. cbn [handle].
  rewrite (handleSave_on_records w rs Hl Hvalid).
  split; repeat split.
Qed.

Lemma submit_then_timer_witness :
  timers (step scenario Submit) = 1%nat
  ∧ fullName (page (step (step scenario Submit) TimerFires)) = []
  ∧ length (distributors (page (step (step scenario Submit) TimerFires))) = 1%nat.
Proof.
  destruct (submit_then_timer scenario []) as (H1 & H2).
  - reflexivity.
  - repeat split; vm_compute; discriminate.
  - split; [apply H1|]. split; [apply H2|].
    destruct H2 as (_ & _ & _ & _ & _ & _ & _ & _ & _ & -> & _). reflexivity.
Defined.

(** X7.  Nothing stops a second submission before the timer fires: on a
    valid form, and a list whose largest id is an integer from [-2^53] to
    [2^53 - 2], two submissions in a row add two records with the same
    name, phone, user name and module, the second id one above the
    first. *)
Theorem double_submit (w : World) (rs : list DistributorRecord) :
  distributors (page w) = map record_value rs →
  valid_form (page w) →
  (∀ m, max_id rs = Some m → (- 2 ^ 53 ≤ m < 2 ^ 53 - 1)%Z) →
  let n := from_option (λ m, m + 1)%Z 1%Z (max_id rs) in
  distributors (page (handleSave (handleSave w)))
  = record_value {| rec_id := n + 1; rec_fullName := trim (fullName (page w));
                    rec_phone := trim (phone (page w));
                    rec_username := trim (username (page w));
                    rec_module := selectedModule (page w) |}
    :: record_value {| rec_id := n; rec_fullName := trim (fullName (page w));
                       rec_phone := trim (phone (page w));
                       rec_username := trim (username (page w));
                       rec_module := selectedModule (page w) |}
    :: distributors (page w)
  ∧ timers (handleSave (handleSave w)) = S (S (timers w)).
Proof.
  intros Hl Hvalid Hroom n.
  assert (Hexact : successor_exact rs).
  { intros m Hm. specialize (Hroom m Hm). lia. }
  assert (Hn : (- 2 ^ 53 ≤ n < 2 ^ 53)%Z).
  { subst n. destruct (max_id rs) as [m|] eqn:Hm; cbn [from_option]; [|lia].
    specialize (Hroom m eq_refl). lia. }
  destruct (handleSave_list w rs Hl Hvalid)
    as (Hl1 & Hvalid1 & Hf & Hp & Hu & Hm & Ht).
  rewrite (next_id_exact rs Hexact) in Hl1. fold n in Hl1.
  destruct (handleSave_list (handleSave w) _ Hl1 Hvalid1)
    as (Hl2 & _ & _ & _ & _ & _ & Ht2).
  rewrite Hl2, Ht2, Ht, Hf, Hp, Hu, Hm, Hl. split; [|reflexivity].
  unfold next_id. cbn [max_id from_option rec_id map].
  rewrite foldl_max_head by apply max_id_upper.
  rewrite round_double_exact by lia. reflexivity.
Qed.

Lemma double_submit_witness :
  map (λ d, get_prop d (js "id"))
      (distributors (page (handleSave (handleSave two_records_filled))))
  = [ Ok (Prim (Number (Int 4))); Ok (Prim (Number (Int 3)));
      Ok (Prim (Number (Int 2))); Ok (Prim (Number (Int 1))) ].
Proof.
  destruct (double_submit two_records_filled
              [ {| rec_id := 2; rec_fullName := js "A B"; rec_phone := js "123";
                   rec_username := js "ab"; rec_module := js "reports" |};
                {| rec_id := 1; rec_fullName := js "Karthik Rao";
                   rec_phone := js "+91 98765 12345";
                   rec_username := js "karthik.rao";
                   rec_module := js "dailySales" |} ]) as [-> _].
  - reflexivity.
  - repeat split; vm_compute; discriminate.
  - intros m Hm. vm_compute in Hm. injection Hm as <-. lia.
  - reflexivity.
Defined.

(** X8.  The name, the phone and the user name of the record that a
    successful submission adds are not empty and neither start nor end
    with white space. *)
Theorem saved_record_is_trimmed (w : World) (rs : list DistributorRecord) :
  distributors (page w) = map record_value rs →
  valid_form (page w) →
  ∃ r, distributors (page (handleSave w)) = record_value r :: distributors (page w)
       ∧ trimmed_text (rec_fullName r)
       ∧ trimmed_text (rec_phone r)
       ∧ trimmed_text (rec_username r).
Proof.
  intros Hl Hvalid.
  destruct (handleSave_list w rs Hl Hvalid) as (Hl1 & _).
  destruct Hvalid as (H1 & H2 & H3 & _).
  eexists. split; [rewrite Hl1, Hl; reflexivity|].
  cbn [rec_fullName rec_phone rec_username].
  repeat split; by apply trim_trimmed.
Qed.

Lemma saved_record_is_trimmed_witness :
  ∃ r, distributors (page (handleSave (setFullName (js "  A B ") scenario)))
       = [record_value r]
       ∧ rec_fullName r = js "A B".
Proof.
  destruct (saved_record_is_trimmed (setFullName (js "  A B ") scenario) [])
    as (r & Hr & _).
  - reflexivity.
  - repeat split; vm_compute; discriminate.
  - exists r. split; [exact Hr|].
    destruct r. vm_compute in Hr. simplify_eq. reflexivity.
Defined.

(** ** Submitting and deleting *)

(** X9.  On a list whose largest id is an integer from [-2^53] to
    [2^53 - 1], deleting the record that a submission has just added
    gives back the list as it was before the submission. *)
Theorem save_then_delete (w : World) (rs : list DistributorRecord) :
  distributors (page w) = map record_value rs →
  valid_form (page w) →
  successor_exact rs →
  distributors
    (page (handleDelete
             (Number (Int (from_option (λ m, m + 1)%Z 1%Z (max_id rs)))) true
             (handleSave w)))
  = distributors (page w).
Proof.
  intros Hl Hvalid Hexact.
  destruct (handleSave_list w rs Hl Hvalid) as (Hl1 & _).
  rewrite (next_id_exact rs Hexact) in Hl1.
  unfold handleDelete, setDistributors. cbn [negb].
  rewrite Hl1, without_id_records. cbn [page distributors].
  rewrite filter_cons, decide_False.
  2:{ cbn [rec_id]. rewrite strict_equal_int, bool_decide_eq_true_2; done. }
  rewrite filter_other_ids by apply max_id_upper. by rewrite Hl.
Qed.

Lemma save_then_delete_witness :
  distributors (page (handleDelete (Number (Int 3)) true
                        (handleSave two_records_filled)))
  = distributors (page two_records).
Proof.
  apply (save_then_delete two_records_filled
           [ {| rec_id := 2; rec_fullName := js "A B"; rec_phone := js "123";
                rec_username := js "ab"; rec_module := js "reports" |};
             {| rec_id := 1; rec_fullName := js "Karthik Rao";
                rec_phone := js "+91 98765 12345";
                rec_username := js "karthik.rao";
                rec_module := js "dailySales" |} ]).
  - reflexivity.
  - repeat split; vm_compute; discriminate.
  - intros m Hm. vm_compute in Hm. injection Hm as <-. lia.
Defined.

(** X10.  The next id is computed from the records that are left: when
    the newest record (the one with the largest id) is deleted and the
    largest id that is left is an integer from [-2^53] to [2^53 - 1], the
    next submission gives the new record that id plus one (1 when no
    record is left), which is the id of the deleted record when that was
    one above the rest. *)
Theorem delete_then_save_reuses_id
    (w : World) (r : DistributorRecord) (rs : list DistributorRecord) :
  distributors (page w) = map record_value (r :: rs) →
  Forall (λ r0, rec_id r0 < rec_id r)%Z rs →
  valid_form (page w) →
  successor_exact rs →
  ∃ r', distributors
          (page (handleSave (handleDelete (Number (Int (rec_id r))) true w)))
        = record_value r' :: map record_value rs
        ∧ rec_id r' = from_option (λ m, m + 1)%Z 1%Z (max_id rs)
        ∧ (rec_id r = from_option (λ m, m + 1)%Z 1%Z (max_id rs) →
           rec_id r' = rec_id r).
Proof.
  intros Hl Hlt Hvalid Hexact.
  set (w1 := handleDelete (Number (Int (rec_id r))) true w).
  assert (Hl1 : distributors (page w1) = map record_value rs).
  { subst w1. unfold handleDelete, setDistributors. cbn [negb].
    rewrite Hl, without_id_records. cbn [page distributors].
    rewrite filter_cons, decide_False.
    2:{ rewrite strict_equal_int, bool_decide_eq_true_2; done. }
    by rewrite filter_other_ids. }
  assert (Hvalid1 : valid_form (page w1)).
  { subst w1. unfold handleDelete, setDistributors. cbn [negb].
    destruct (without_id _ _); exact Hvalid. }
  destruct (handleSave_list w1 rs Hl1 Hvalid1) as (Hl2 & _).
  rewrite (next_id_exact rs Hexact) in Hl2.
  eexists. split; [rewrite Hl2; reflexivity|].
  cbn [rec_id]. split; [reflexivity | congruence].
Qed.

Lemma delete_then_save_reuses_id_witness :
  ∃ r', distributors
          (page (handleSave (handleDelete (Number (Int 2)) true two_records_filled)))
        = record_value r' :: SAMPLE
        ∧ rec_id r' = 2%Z.
Proof.
  destruct (delete_then_save_reuses_id two_records_filled
              {| rec_id := 2; rec_fullName := js "A B"; rec_phone := js "123";
                 rec_username := js "ab"; rec_module := js "reports" |}
              [ {| rec_id := 1; rec_fullName := js "Karthik Rao";
                   rec_phone := js "+91 98765 12345";
                   rec_username := js "karthik.rao";
                   rec_module := js "dailySales" |} ])
    as (r' & H1 & H2 & _).
  - reflexivity.
  - repeat constructor.
  - repeat split; vm_compute; discriminate.
  - intros m Hm. vm_compute in Hm. injection Hm as <-. lia.
  - exists r'. split; [exact H1 | exact H2].
Defined.

(** ** The persistence effect *)

Lemma persist_other (l : list value) (st : localStorage.Storage) (k : jsstring) :
  k ≠ STORAGE_KEY →
  localStorage.getItem (persist l st) k = localStorage.getItem st k.
Proof.
  intros Hk. unfold persist.
  destruct st as [|items quota]; [reflexivity|].
  cbn [localStorage.setItem]. destruct (_ <=? quota); [|reflexivity].
  cbn [localStorage.getItem]. by rewrite lookup_insert_ne.
Qed.

Lemma persist_accepted (l : list value) (st : localStorage.Storage) :
  accepts_write st l →
  localStorage.getItem (persist l st) STORAGE_KEY
  = Ok (Some (default (js "undefined") (JSON.stringify (Array l)))).
Proof.
  intros [st' Hw]. unfold persist. rewrite Hw.
  destruct st as [|items quota]; [discriminate|].
  cbn [localStorage.setItem] in Hw. destruct (_ <=? quota); [|discriminate].
  injection Hw as <-. cbn [localStorage.getItem]. by rewrite lookup_insert_eq.
Qed.

Lemma persist_refused (l : list value) (st : localStorage.Storage) :
  ¬ accepts_write st l → persist l st = st.
Proof.
  intros Hno. unfold persist.
  destruct (localStorage.setItem st STORAGE_KEY _) as [st'|e] eqn:Hw; [|done].
  destruct Hno. by exists st'.
Qed.

(** X11.  The persistence effect writes one entry and nothing else: the
    other entries of the storage area are as before; when the storage
    area takes the write, the entry is the JSON text of the list; when it
    does not, the storage area is left as it was. *)
Theorem persist_writes_one_entry (l : list value) (st : localStorage.Storage) :
  (∀ k, k ≠ STORAGE_KEY →
        localStorage.getItem (persist l st) k = localStorage.getItem st k)
  ∧ (accepts_write st l →
     localStorage.getItem (persist l st) STORAGE_KEY
     = Ok (Some (default (js "undefined") (JSON.stringify (Array l)))))
  ∧ (¬ accepts_write st l → persist l st = st).
Proof.
  split; [intros k; apply persist_other|].
  split; [apply persist_accepted | apply persist_refused].
Qed.

Lemma load_text_records (rs : list DistributorRecord) (st : localStorage.Storage) :
  Forall (λ r, (Z.abs (rec_id r) ≤ 2 ^ 53)%Z) rs →
  localStorage.getItem st STORAGE_KEY
  = Ok (Some (default (js "undefined")
                (JSON.stringify (Array (map record_value rs))))) →
  load st = Ok (map record_value rs).
Proof.
  intros Hsafe Hget. unfold load. rewrite Hget.
  pose proof (stringify_records rs) as Htext.
  pose proof (parse_stringify_records rs _ Hsafe Htext) as Hparse.
  rewrite Htext. cbn [from_option]. unfold id.
  cbn [mbind result_bind]. rewrite Hparse. reflexivity.
Qed.

Lemma persist_records (rs : list DistributorRecord) (st : localStorage.Storage) :
  Forall (λ r, (Z.abs (rec_id r) ≤ 2 ^ 53)%Z) rs →
  (persist (map record_value rs) st = st
   ∧ ¬ accepts_write st (map record_value rs))
  ∨ (accepts_write st (map record_value rs)
     ∧ load (persist (map record_value rs) st) = Ok (map record_value rs)).
Proof.
  intros Hsafe.
  destruct (localStorage.setItem st STORAGE_KEY
              (default (js "undefined")
                 (JSON.stringify (Array (map record_value rs)))))
    as [st'|e] eqn:Hw.
  - right. assert (Hacc : accepts_write st (map record_value rs)) by by exists st'.
    split; [exact Hacc|].
    apply load_text_records; [exact Hsafe|]. by apply persist_accepted.
  - left. assert (Hno : ¬ accepts_write st (map record_value rs)).
    { intros [st' Hst']. congruence. }
    split; [by apply persist_refused | exact Hno].
Qed.

Lemma frame_events (w : World) (ev : event) :
  sets_list ev = false →
  distributors (page (handle ev w)) = distributors (page w)
  ∧ storage (handle ev w) = storage w
  ∧ distributorsChanged (handle ev w) = distributorsChanged w.
Proof.
  intros Hev. destruct ev; try discriminate; cbn [handle]; try by repeat split.
  - by destruct (ACCESS_MODULES !! i).
  - destruct confirmed; [discriminate|]. by repeat split.
  - by destruct (timers w).
Qed.

(** X12.  Typing in a field, showing or hiding a password, selecting a
    tile, cancelling, declining a deletion and a timer never touch the
    list of distributors nor the storage area. *)
Theorem other_events_leave_store (w : World) (ev : event) :
  sets_list ev = false →
  distributorsChanged w = false →
  distributors (page (step w ev)) = distributors (page w)
  ∧ storage (step w ev) = storage w
  ∧ distributorsChanged (step w ev) = false.
Proof.
  intros Hev Hflag.
  destruct (frame_events w ev Hev) as (Hl & Hs & Hc).
  unfold step, runEffects. rewrite Hc, Hflag.
  split; [exact Hl|]. split; [exact Hs|]. by rewrite Hc.
Qed.

Lemma other_events_leave_store_witness :
  distributors (page (step two_records (ChangePassword (js "secret"))))
  = distributors (page two_records)
  ∧ storage (step two_records (ChangePassword (js "secret")))
    = storage two_records
  ∧ distributorsChanged (step two_records (ChangePassword (js "secret"))) = false.
Proof.
  apply (other_events_leave_store two_records (ChangePassword (js "secret")));
    reflexivity.
Defined.

Lemma next_id_bound (rs : list DistributorRecord) :
  Forall (λ r, safe_integer (rec_id r)) rs →
  (Z.abs (next_id rs) ≤ 2 ^ 53)%Z.
Proof.
  intros Hsafe. unfold next_id.
  destruct (max_id rs) as [m|] eqn:Hm; [|lia].
  apply max_id_elem in Hm. apply list_elem_of_fmap in Hm as (r & -> & Hr).
  rewrite Forall_forall in Hsafe. apply Hsafe in Hr.
  unfold safe_integer in Hr. rewrite round_double_exact; lia.
Qed.

(** What an event that sets the list leaves behind, on a list of
    records. *)
Lemma step_records (w : World) (rs : list DistributorRecord) (ev : event) :
  distributors (page w) = map record_value rs →
  Forall (λ r, safe_integer (rec_id r)) rs →
  distributorsChanged w = false →
  (distributors (page (step w ev)) = distributors (page w)
   ∧ storage (step w ev) = storage w
   ∧ distributorsChanged (step w ev) = false)
  ∨ ∃ rs', distributors (page (step w ev)) = map record_value rs'
           ∧ Forall (λ r, (Z.abs (rec_id r) ≤ 2 ^ 53)%Z) rs'
           ∧ storage (step w ev) = persist (map record_value rs') (storage w)
           ∧ distributorsChanged (step w ev) = false.
Proof.
  intros Hl Hsafe Hflag.
  assert (Hwide : Forall (λ r, (Z.abs (rec_id r) ≤ 2 ^ 53)%Z) rs).
  { eapply Forall_impl; [exact Hsafe|]. intros r. apply safe_integer_below. }
  destruct (sets_list ev) eqn:Hev.
  2:{ left. destruct (frame_events w ev Hev) as (Hl' & Hs & Hc).
      unfold step, runEffects. rewrite Hc, Hflag.
      split; [exact Hl'|]. split; [exact Hs|]. by rewrite Hc. }
  destruct ev; try discriminate.
  - (* Submit *)
    unfold step. cbn [handle].
    destruct (decide (size (validate (page w)) = 0%nat)) as [Hz|Hnz].
    + right. apply validate_size_zero in Hz as [He _].
      pose proof (nextId_records rs) as Hid. rewrite <- Hl in Hid.
      rewrite (handleSave_valid w _ He Hid).
      eexists ({| rec_id := _ |} :: rs).
      split; [cbn; rewrite Hl; reflexivity|].
      split; [|split; [cbn; by rewrite Hl | reflexivity]].
      constructor; [|exact Hwide]. cbn [rec_id]. by apply next_id_bound.
    + left. rewrite (handleSave_invalid w Hnz).
      unfold runEffects. cbn. rewrite Hflag. by repeat split.
  - (* ClickDelete *)
    destruct confirmed; [|discriminate]. right.
    unfold step. cbn [handle]. unfold handleDelete, setDistributors. cbn [negb].
    rewrite Hl, without_id_records.
    eexists. split; [reflexivity|].
    split; [|split; reflexivity].
    rewrite Forall_forall in *. intros r [_ Hr]%list_elem_of_filter. by apply Hwide.
Qed.

(** X13.  On a list of records, after any event the effect has run, and
    the storage area is either untouched or holds the list now shown:
    whenever an event changes the list and the storage area takes the
    write, loading the storage area gives the new list. *)
Theorem step_mirrors_list (w : World) (rs : list DistributorRecord) (ev : event) :
  distributors (page w) = map record_value rs →
  Forall (λ r, safe_integer (rec_id r)) rs →
  distributorsChanged w = false →
  distributorsChanged (step w ev) = false
  ∧ (storage (step w ev) = storage w
     ∨ load (storage (step w ev)) = Ok (distributors (page (step w ev))))
  ∧ (distributors (page (step w ev)) ≠ distributors (page w) →
     accepts_write (storage w) (distributors (page (step w ev))) →
     load (storage (step w ev)) = Ok (distributors (page (step w ev)))).
Proof.
  intros Hl Hsafe Hflag.
  destruct (step_records w rs ev Hl Hsafe Hflag)
    as [(Hsame & Hst & Hc) | (rs' & Hl' & Hwide & Hst & Hc)].
  - split; [exact Hc|]. split; [by left|]. intros Hne. by destruct Hne.
  - split; [exact Hc|]. rewrite Hl', Hst.
    destruct (persist_records rs' (storage w) Hwide) as [[Hp Hno] | [Hacc Hload]].
    + split; [by left|]. intros _ Hacc. by destruct Hno.
    + split; [by right|]. intros _ _. exact Hload.
Qed.

Lemma step_mirrors_list_witness :
  load (storage (step two_records (ClickDelete (Number (Int 1)) true)))
  = Ok (distributors (page (step two_records (ClickDelete (Number (Int 1)) true)))).
Proof.
  refine (proj2 (proj2 (step_mirrors_list two_records
           [ {| rec_id := 2; rec_fullName := js "A B"; rec_phone := js "123";
                rec_username := js "ab"; rec_module := js "reports" |};
             {| rec_id := 1; rec_fullName := js "Karthik Rao";
                rec_phone := js "+91 98765 12345";
                rec_username := js "karthik.rao";
                rec_module := js "dailySales" |} ]
           (ClickDelete (Number (Int 1)) true) _ _ _)) _ _).
  - reflexivity.
  - repeat constructor; vm_compute; discriminate.
  - reflexivity.
  - vm_compute. discriminate.
  - eexists. vm_compute. reflexivity.
Defined.

(** X14.  Mounting writes the loaded list back: when the load gives a
    list of records and the storage area takes the write, the page
    mounts with that list and the storage entry is then the JSON text of
    it, whatever the entry was before (absent, unreadable, or written in
    another layout). *)
Theorem mount_writes_back (st : localStorage.Storage) (rs : list DistributorRecord) :
  load st = Ok (map record_value rs) →
  Forall (λ r, safe_integer (rec_id r)) rs →
  accepts_write st (map record_value rs) →
  ∃ w0, mount st = Ok w0
        ∧ distributors (page w0) = map record_value rs
        ∧ distributorsChanged w0 = false
        ∧ localStorage.getItem (storage w0) STORAGE_KEY
          = Ok (JSON.stringify (Array (map record_value rs)))
        ∧ load (storage w0) = Ok (map record_value rs).
Proof.
  intros Hload Hsafe Hacc. unfold mount. rewrite Hload. cbn [mbind result_bind].
  eexists. split; [reflexivity|].
  unfold runEffects. cbn [page distributors storage distributorsChanged].
  split; [reflexivity|]. split; [reflexivity|].
  pose proof (persist_accepted _ _ Hacc) as Hget.
  split.
  - rewrite Hget, stringify_records. reflexivity.
  - apply load_text_records; [|exact Hget].
    eapply Forall_impl; [exact Hsafe|]. intros r. apply safe_integer_below.
Qed.

Lemma mount_writes_back_witness :
  ∃ w0, mount broken_storage = Ok w0
        ∧ distributors (page w0) = SAMPLE
        ∧ load (storage w0) = Ok SAMPLE.
Proof.
  destruct (mount_writes_back broken_storage
              [ {| rec_id := 1; rec_fullName := js "Karthik Rao";
                   rec_phone := js "+91 98765 12345";
                   rec_username := js "karthik.rao";
                   rec_module := js "dailySales" |} ])
    as (w0 & H1 & H2 & _ & _ & H5).
  - vm_compute. reflexivity.
  - repeat constructor; vm_compute; discriminate.
  - eexists. vm_compute. reflexivity.
  - exists w0. split; [exact H1|]. split; [exact H2 | exact H5].
Defined.

(** ** The tiles *)

(** X15.  The tiles are a single choice: at most one tile is drawn
    active; after a click on a tile that tile, and only that one, is
    active; a reset leaves none active. *)
Theorem tiles_single_choice (w : World) :
  (length (active_tiles (page w)) ≤ 1)%nat
  ∧ (∀ i m, ACCESS_MODULES !! i = Some m →
            active_tiles (page (handle (ClickTile i) w)) = [m])
  ∧ active_tiles (page (resetForm w)) = [].
Proof.
  split; [|split].
  - unfold active_tiles, ACCESS_MODULES, tile_active.
    rewrite !filter_cons, filter_nil.
    repeat match goal with
           | |- context [decide (bool_decide (?s = ?k) = true)] =>
               destruct (decide (bool_decide (s = k) = true))
           end;
      cbn [length]; try lia;
      repeat match goal with
             | H : bool_decide _ = true |- _ => apply bool_decide_eq_true in H
             end;
      match goal with
      | H1 : ?s = _, H2 : ?s = _ |- _ =>
          rewrite H1 in H2; vm_compute in H2; discriminate
      end.
  - intros i m Hm. cbn [handle]. rewrite Hm.
    do 5 (destruct i as [|i]; [injection Hm as <-; reflexivity|]).
    discriminate.
  - reflexivity.
Qed.

(** ** The initials *)

Lemma split_on_head (sep c : N) (t : jsstring) :
  c ≠ sep →
  ∃ seg segs, split_on sep (c :: t) = (c :: seg) :: segs.
Proof.
  intros Hc. cbn [split_on]. apply N.eqb_neq in Hc. rewrite Hc.
  destruct (split_on sep t); eauto.
Qed.

Lemma split_on_word (sep : N) (a : jsstring) :
  sep ∉ a → split_on sep a = [a].
Proof.
  induction a as [|c a IH]; [reflexivity|].
  intros Hnot. cbn [split_on].
  rewrite (proj2 (N.eqb_neq c sep)) by (intros ->; apply Hnot; left).
  rewrite IH by (intros H; apply Hnot; by right). reflexivity.
Qed.

Lemma split_on_app (sep : N) (a t : jsstring) :
  sep ∉ a → split_on sep (a ++ sep :: t) = a :: split_on sep t.
Proof.
  induction a as [|c a IH]; intros Hnot.
  - cbn [app split_on]. by rewrite N.eqb_refl.
  - cbn [app split_on].
    rewrite (proj2 (N.eqb_neq c sep)) by (intros ->; apply Hnot; left).
    rewrite IH by (intros H; apply Hnot; by right). reflexivity.
Qed.

(** X16.  The avatar of a record shows the upper-cased first code units
    of the first two parts of the name, as split at single spaces: at
    most two units; for a name that does not start with a space, its
    first unit comes first; two words give both their first units,
    further words add nothing; and after a double space the second
    initial is missing. *)
Theorem initials_of_name (toUpperCase : jsstring → jsstring) :
  (∀ name, ∃ u, initials toUpperCase name = toUpperCase u ∧ (length u ≤ 2)%nat)
  ∧ (∀ c t, c ≠ chr " " →
            ∃ rest, initials toUpperCase (c :: t) = toUpperCase (c :: rest)
                    ∧ (length rest ≤ 1)%nat)
  ∧ (∀ c a d b more,
       chr " " ∉ c :: a → chr " " ∉ d :: b →
       initials toUpperCase (c :: a) = toUpperCase [c]
       ∧ initials toUpperCase ((c :: a) ++ chr " " :: d :: b) = toUpperCase [c; d]
       ∧ initials toUpperCase ((c :: a) ++ chr " " :: (d :: b) ++ chr " " :: more)
         = toUpperCase [c; d]
       ∧ initials toUpperCase ((c :: a) ++ chr " " :: chr " " :: more)
         = toUpperCase [c]).
Proof.
  split; [|split].
  - intros name. unfold initials. eexists. split; [reflexivity|].
    destruct (split_on (chr " ") name) as [|s1 [|s2 segs]]; cbn;
      [lia | destruct s1; cbn; lia
       | destruct s1, s2; cbn; rewrite take_0; cbn; lia].
  - intros c t Hc. unfold initials.
    destruct (split_on_head (chr " ") c t Hc) as (seg & segs & ->).
    destruct segs as [|s2 segs]; cbn.
    + exists []. split; [reflexivity | cbn; lia].
    + exists (first_unit s2). rewrite take_0. cbn. rewrite app_nil_r.
      split; [reflexivity|]. destruct s2; cbn; lia.
  - intros c a d b more Hca Hdb. unfold initials.
    rewrite (split_on_word _ (c :: a)) by done.
    rewrite !(split_on_app _ (c :: a)) by done.
    rewrite (split_on_word _ (d :: b)) by done.
    rewrite (split_on_app _ (d :: b)) by done.
    change (split_on (chr " ") (chr " " :: more))
      with ([] :: split_on (chr " ") more).
    cbn. rewrite !take_0. repeat split.
Qed.

(** ** What no event does *)

Lemma without_id_sublist (id : primitive) (l l' : list value) :
  without_id id l = Ok l' → l' `sublist_of` l.
Proof.
  revert l'. induction l as [|d l IH]; intros l'; cbn [without_id].
  - intros [= <-]. constructor.
  - destruct (get_prop d (js "id")) as [x|]; [|discriminate].
    cbn [mbind result_bind].
    destruct (without_id id l) as [kept|]; [|discriminate].
    cbn [mbind result_bind]. intros [= <-].
    destruct (negb (strict_equal x id)).
    + apply sublist_skip || apply sublist_cons; by apply IH.
    + apply sublist_cons || apply sublist_skip; by apply IH.
Qed.

(** X17.  No event edits or reorders the records of the list, whatever
    the list holds: after an event the list is the old one with some
    records left out, or the old one behind one new object. *)
Theorem events_keep_records (w : World) (ev : event) :
  distributors (page (step w ev)) `sublist_of` distributors (page w)
  ∨ ∃ d, distributors (page (step w ev)) = d :: distributors (page w).
Proof.
  unfold step. rewrite page_runEffects.
  destruct (sets_list ev) eqn:Hev.
  2:{ left. destruct (frame_events w ev Hev) as (-> & _). done. }
  destruct ev; try discriminate; cbn [handle].
  - unfold handleSave.
    destruct (bool_decide _); [by left|].
    destruct (nextId _); [|by left]. right. by eexists.
  - destruct confirmed; [|discriminate]. left.
    unfold handleDelete, setDistributors. cbn [negb].
    destruct (without_id id (distributors (page w))) as [l'|] eqn:Hl; [|done].
    by apply without_id_sublist in Hl.
Qed.

(** X18.  The message under the confirmation field: [Confirm the
    password.] exactly when the confirmation is empty; [Passwords do not
    match.] exactly when both fields are filled in and differ; none
    otherwise, so none when the password is empty and the confirmation
    is not. *)
Theorem confirm_message (st : State) :
  (validate st !! "confirmPassword" = Some "Confirm the password."
   ↔ confirmPassword st = [])
  ∧ (validate st !! "confirmPassword" = Some "Passwords do not match."
     ↔ password st ≠ [] ∧ confirmPassword st ≠ []
       ∧ password st ≠ confirmPassword st)
  ∧ (validate st !! "confirmPassword" = None
     ↔ confirmPassword st ≠ []
       ∧ (password st = [] ∨ password st = confirmPassword st)).
Proof.
  rewrite validate_confirmPassword.
  destruct (confirmPassword st) as [|c cp] eqn:Hc;
    destruct (password st) as [|p pw] eqn:Hp; cbn [truthy negb andb];
    try case_bool_decide; cbn [negb];
    (split; [|split]); split;
    first [ done | discriminate | intros (? & ? & ?); done
          | intros [? [?|?]]; done | intros [= ?] | idtac ].
  all: try (intros [? ?]; done).
  all: try (intros _; split; [done|]; by (left + right)).
  all: try (intros _; repeat split; done).
Qed.
